(** * Pyrogram convenience layer: command adapters and result parsing

    A shallow embedding of
      - [pyrogram/methods/invite_links/edit_chat_invite_link.py],
      - [pyrogram/methods/messages/translate_text.py],
      - the re-export tables of [pyrogram/types/message_origin/__init__.py]
        and [pyrogram/types/messages_and_media/__init__.py].

    The adapters are [async] methods of the client.  Their collaborators
    ([resolve_peer], [invoke], [utils.parse_text_entities],
    [utils.datetime_to_timestamp] and the [_parse] factories) live outside
    these files; they are the members of the class [Collaborators] below.
    Awaited collaborators act on the outside world and may raise, so the
    adapters are written in a state-and-exception monad whose state also
    records the sequence of awaited calls. *)

From stdpp Require Import gmap strings list fin_maps.
From Stdlib Require Import ZArith.

(** ** Python values at the adapters' boundary *)

(** [chat_id: Union[int, str]] *)
Inductive chat_ref : Type :=
| ChatInt (n : Z)
| ChatStr (s : string).

(** [message_ids: Union[int, list[int]]] *)
Inductive message_ids_arg : Type :=
| OneId (n : Z)
| IdList (l : list Z).

(** Truthiness of an optional Python list: [None] and [[]] are falsy. *)
Definition truthy {A : Type} (v : option (list A)) : bool :=
  match v with
  | None => false
  | Some [] => false
  | Some (_ :: _) => true
  end.

(** Python's [x or y]: [x] when [x] is truthy, [y] otherwise. *)
Definition py_or {A : Type} (x y : option (list A)) : option (list A) :=
  if truthy x then x else y.

(** Binding of a keyword parameter declared [p = None]: the caller's value
    when the keyword is supplied, the default otherwise. *)
Definition bind_kw {A : Type} (default : A) (supplied : option A) : A :=
  match supplied with
  | Some v => v
  | None => default
  end.

(** Opaque schema and domain types: their field lists play no part in the
    adapters, only the attributes named here do. *)
Class Schema : Type := {
  InputPeer : Type;         (* what [resolve_peer] returns *)
  datetime : Type;          (* [datetime.datetime] *)
  ParseMode : Type;         (* [enums.ParseMode] *)
  MessageEntity : Type;     (* [types.MessageEntity] *)
  RawEntity : Type;         (* [raw.types.MessageEntity] *)
  RawInvite : Type;         (* [raw.types.ExportedChatInvite] *)
  RawUser : Type;           (* [raw.types.User] *)
  user_id : RawUser -> Z;   (* the [id] attribute of a raw user *)
  ChatInviteLink : Type;    (* [types.ChatInviteLink] *)
  TranslatedText : Type;    (* [types.TranslatedText] *)
  exn : Type;               (* raised exceptions *)
  IndexError : exn;         (* raised by a subscript out of range *)
  world : Type              (* session, network, peer cache *)
}.

Section Adapters.

Context {schema : Schema}.

(** A call either raises ([inl e]) or returns ([inr v]). *)
Definition result (A : Type) : Type := (exn + A)%type.

#[export] Instance result_fmap : FMap result := fun A B (f : A -> B) r =>
  match r with
  | inl e => inl e
  | inr a => inr (f a)
  end.

#[export] Instance result_ret : MRet result := fun A (a : A) => inr a.

#[export] Instance result_bind : MBind result := fun A B (k : A -> result B) r =>
  match r with
  | inl e => inl e
  | inr a => k a
  end.

(** The subscript [l[i]] for [i >= 0]. *)
Definition subscript {A : Type} (l : list A) (i : nat) : result A :=
  match l !! i with
  | Some x => inr x
  | None => inl IndexError
  end.

(** What the caller may bind to [expire_date]: [None], an integer (the
    docstring's example passes [0]) or a [datetime]. *)
Inductive expire_arg : Type :=
| ExpNone
| ExpInt (z : Z)
| ExpDatetime (d : datetime).

(** *** Raw schema objects, with the keyword arguments the adapters use.
    A field holds a Python value, so an optional field may hold [None]. *)

Record EditExportedChatInvite_t : Type := EditExportedChatInvite {
  peer : InputPeer;
  link : string;
  expire_date : option Z;
  usage_limit : option Z;
  title : option string;
  request_needed : option bool
}.

Record TextWithEntities_t : Type := TextWithEntities {
  text : string;
  entities : option (list RawEntity)
}.

(** [raw.functions.messages.TranslateText]; a keyword the caller of the
    constructor leaves out is [None]. *)
Record TranslateText_t : Type := TranslateText {
  to_lang : string;
  tt_peer : option InputPeer;
  tt_id : option (list Z);
  tt_text : option (list TextWithEntities_t)
}.

Inductive raw_function : Type :=
| FnEditExportedChatInvite (q : EditExportedChatInvite_t)
| FnTranslateText (q : TranslateText_t).

(** [raw.types.messages.ExportedChatInvite] *)
Record ExportedChatInvite_r : Type := {
  invite : RawInvite;
  users : list RawUser
}.

(** [raw.types.messages.TranslateResult] *)
Record TranslateResult_r : Type := {
  tr_result : list TextWithEntities_t
}.

Definition response_of (q : raw_function) : Type :=
  match q with
  | FnEditExportedChatInvite _ => ExportedChatInvite_r
  | FnTranslateText _ => TranslateResult_r
  end.

(** The pair [utils.parse_text_entities] returns (a dict with the keys
    [message] and [entities], unpacked through [.values()]). *)
Record parsed_text : Type := {
  pt_message : string;
  pt_entities : option (list RawEntity)
}.

(** *** Collaborators

    The client's awaited methods act on the world; the helpers of [utils]
    and the [_parse] factories are synchronous. *)

Class Collaborators : Type := {
  resolve_peer : chat_ref -> world -> world * result InputPeer;
  invoke : forall q : raw_function, world -> world * result (response_of q);
  parse_text_entities :
    string -> option ParseMode -> option (list MessageEntity) ->
    world -> world * result parsed_text;
  datetime_to_timestamp : expire_arg -> option Z;
  ChatInviteLink_parse : RawInvite -> gmap Z RawUser -> result ChatInviteLink;
  TranslatedText_parse : TextWithEntities_t -> result TranslatedText
}.

Context {client : Collaborators}.

(** *** The monad of an adapter call *)

Inductive event : Type :=
| EvResolvePeer (c : chat_ref)
| EvInvoke (q : raw_function)
| EvParseTextEntities (t : string) (m : option ParseMode)
    (e : option (list MessageEntity)).

Record state : Type := State {
  st_world : world;
  st_trace : list event
}.

Definition M (A : Type) : Type := state -> state * result A.

#[export] Instance M_ret : MRet M := fun A (a : A) s => (s, inr a).

#[export] Instance M_bind : MBind M := fun A B (k : A -> M B) (m : M A) s =>
  match m s with
  | (s', inl e) => (s', inl e)
  | (s', inr a) => k a s'
  end.

(** A synchronous, pure but fallible call. *)
Definition lift {A : Type} (r : result A) : M A := fun s => (s, r).

(** An awaited collaborator: logged, then run on the world. *)
Definition await {A : Type} (ev : event) (c : world -> world * result A) : M A :=
  fun s =>
    let (w', r) := c (st_world s) in
    (State w' (st_trace s ++ [ev]), r).

Definition await_resolve_peer (c : chat_ref) : M InputPeer :=
  await (EvResolvePeer c) (resolve_peer c).

Definition await_invoke (q : raw_function) : M (response_of q) :=
  await (EvInvoke q) (invoke q).

Definition await_parse_text_entities (t : string) (m : option ParseMode)
    (e : option (list MessageEntity)) : M parsed_text :=
  await (EvParseTextEntities t m e) (parse_text_entities t m e).

(** A list comprehension [[f(i) for i in l]] whose body may raise: elements
    are visited from left to right and the first exception escapes. *)
Fixpoint comprehension {A B : Type} (f : A -> result B) (l : list A)
  : result (list B) :=
  match l with
  | [] => inr []
  | x :: l' =>
      match f x with
      | inl e => inl e
      | inr y =>
          match comprehension f l' with
          | inl e => inl e
          | inr ys => inr (y :: ys)
          end
      end
  end.

(** ** [edit_chat_invite_link] *)

(** [{i.id: i for i in r.users}]: entries are stored from left to right, a
    later entry replacing an earlier one with the same key. *)
Definition users_by_id (us : list RawUser) : gmap Z RawUser :=
  foldl (fun m i => <[user_id i := i]> m) ∅ us.

(** The one request of the method,
    [raw.functions.messages.EditExportedChatInvite(peer=..., link=invite_link,
     expire_date=utils.datetime_to_timestamp(expire_date),
     usage_limit=member_limit, title=name, request_needed=creates_join_request)],
    for the peer [resolve_peer] returned. *)
Definition edit_request (p : InputPeer) (invite_link : string)
    (name : option string) (expire : expire_arg) (member_limit : option Z)
    (creates_join_request : option bool) : raw_function :=
  FnEditExportedChatInvite
    (EditExportedChatInvite p invite_link (datetime_to_timestamp expire)
       member_limit name creates_join_request).

Definition edit_chat_invite_link
    (chat_id : chat_ref) (invite_link : string) (name : option string)
    (expire : expire_arg) (member_limit : option Z)
    (creates_join_request : option bool) : M ChatInviteLink :=
  p ← await_resolve_peer chat_id;
  r ← await_invoke
        (edit_request p invite_link name expire member_limit
           creates_join_request);
  let users := users_by_id (users r) in
  lift (ChatInviteLink_parse (invite r) users).

(** The call as the caller writes it: the four optional keywords may be
    left out, and each then takes its declared default [None]. *)
Definition call_edit_chat_invite_link
    (chat_id : chat_ref) (invite_link : string)
    (kw_name : option (option string))
    (kw_expire_date : option expire_arg)
    (kw_member_limit : option (option Z))
    (kw_creates_join_request : option (option bool)) : M ChatInviteLink :=
  edit_chat_invite_link chat_id invite_link
    (bind_kw None kw_name) (bind_kw ExpNone kw_expire_date)
    (bind_kw None kw_member_limit) (bind_kw None kw_creates_join_request).

(** ** [translate_message_text] and [translate_text] *)

(** What a translation call returns: one object or a list of them. *)
Inductive translation : Type :=
| Single (t : TranslatedText)
| Many (l : list TranslatedText).

(** The common tail of both methods:
    [_parse(r.result[0]) if len(r.result) == 1 else [_parse(i) for i in r.result]] *)
Definition parse_translate_result (r : TranslateResult_r) : result translation :=
  if bool_decide (length (tr_result r) = 1%nat)
  then x ← subscript (tr_result r) 0; Single <$> TranslatedText_parse x
  else Many <$> comprehension TranslatedText_parse (tr_result r).

(** [ids = [message_ids] if not isinstance(message_ids, list) else message_ids] *)
Definition ids_of (message_ids : message_ids_arg) : list Z :=
  match message_ids with
  | OneId n => [n]
  | IdList l => l
  end.

(** [raw.functions.messages.TranslateText(to_lang=..., peer=..., id=ids)] *)
Definition translate_ids_request (to_language_code : string) (p : InputPeer)
    (ids : list Z) : raw_function :=
  FnTranslateText (TranslateText to_language_code (Some p) (Some ids) None).

Definition translate_message_text
    (to_language_code : string) (chat_id : chat_ref)
    (message_ids : message_ids_arg) : M translation :=
  let ids := ids_of message_ids in
  p ← await_resolve_peer chat_id;
  r ← await_invoke (translate_ids_request to_language_code p ids);
  lift (parse_translate_result r).

(** [raw.functions.messages.TranslateText(to_lang=...,
      text=[raw.types.TextWithEntities(text=message, entities=entities or [])])] *)
Definition translate_text_request (to_language_code : string)
    (pt : parsed_text) : raw_function :=
  FnTranslateText
    (TranslateText to_language_code None None
       (Some [TextWithEntities (pt_message pt)
                (py_or (pt_entities pt) (Some []))])).

Definition translate_text
    (to_language_code : string) (txt : string)
    (parse_mode : option ParseMode)
    (ents : option (list MessageEntity)) : M translation :=
  pt ← await_parse_text_entities txt parse_mode ents;
  r ← await_invoke (translate_text_request to_language_code pt);
  lift (parse_translate_result r).

(** Running a call from a world, with an empty log. *)
Definition run {A : Type} (m : M A) (w : world) : state * result A :=
  m (State w []).

Definition outcome {A : Type} (m : M A) (w : world) : result A := (run m w).2.

Definition trace {A : Type} (m : M A) (w : world) : list event :=
  st_trace (run m w).1.

(** *** Observations on a log *)

Definition invoked (ev : event) : option raw_function :=
  match ev with
  | EvInvoke q => Some q
  | _ => None
  end.

(** The raw requests handed to the transport, in order. *)
Definition sent_requests (t : list event) : list raw_function := omap invoked t.

Definition is_resolve (ev : event) : bool :=
  match ev with
  | EvResolvePeer _ => true
  | _ => false
  end.

(** How many times [resolve_peer] was awaited. *)
Definition resolve_count (t : list event) : nat :=
  length (List.filter is_resolve t).

End Adapters.

(** ** The [MessageOrigin] family *)

Module MessageOriginFamily.

(** [__all__] of [pyrogram/types/message_origin/__init__.py] *)
Definition message_origin_all : list string :=
  [ "MessageImportInfo"; "MessageOrigin"; "MessageOriginChannel";
    "MessageOriginChat"; "MessageOriginHiddenUser"; "MessageOriginUser" ].

(** The names of the family in [__all__] of
    [pyrogram/types/messages_and_media/__init__.py]. *)
Definition messages_and_media_origin_names : list string :=
  [ "MessageOriginImport"; "MessageOrigin"; "MessageOriginChannel";
    "MessageOriginChat"; "MessageOriginHiddenUser"; "MessageOriginUser" ].

(** The closed set of shapes. *)
Inductive variant : Type :=
| Channel
| Chat
| HiddenUser
| User
| Import.

#[export] Instance variant_eq_dec : EqDecision variant.
Proof. solve_decision. Defined.

Definition all_variants : list variant := [Channel; Chat; HiddenUser; User; Import].

(** The class each shape is exported as. *)
Definition class_name (v : variant) : string :=
  match v with
  | Channel => "MessageOriginChannel"
  | Chat => "MessageOriginChat"
  | HiddenUser => "MessageOriginHiddenUser"
  | User => "MessageOriginUser"
  | Import => "MessageOriginImport"
  end.

(** The concrete schema type of a raw payload, which is its discriminant:
    one of the five shapes of the family, or any other type of the schema. *)
Inductive raw_shape : Type :=
| ShapeChannel
| ShapeChat
| ShapeHiddenUser
| ShapeUser
| ShapeImport
| ShapeForeign (type_name : string).

#[export] Instance raw_shape_eq_dec : EqDecision raw_shape.
Proof. solve_decision. Defined.

(** The error of a payload whose concrete type has no registered variant. *)
Inductive parse_error : Type :=
| SchemaDrift (s : raw_shape).

(** Modelled from the spec: the dispatch table of the variant parser, which
    is in [message_origin.py], not among the files at hand.  The family is
    the closed set of the five shapes, each registered with the variant that
    matches it exactly. *)
Definition registry : list (raw_shape * variant) :=
  [ (ShapeChannel, Channel);
    (ShapeChat, Chat);
    (ShapeHiddenUser, HiddenUser);
    (ShapeUser, User);
    (ShapeImport, Import) ].

(** The variant registered for a concrete type, if any. *)
Definition registered (s : raw_shape) : option variant :=
  snd <$> List.find (fun entry => bool_decide (entry.1 = s)) registry.

Section Parser.

Context {Payload Identity : Type}.
Context (shape_of : Payload -> raw_shape).
Context (user_ref : Payload -> option Z).   (* an embedded user reference *)

(** A parsed origin: its shape, populated from the payload it came from and
    from the reference resolved in the auxiliary table. *)
Record MessageOrigin : Type := {
  kind : variant;
  source : Payload;
  sender : option Identity
}.

(** Modelled from the spec: [MessageOrigin._parse], the single entry point
    of the variant parser, is in [message_origin.py], which is not among the
    files at hand.  Following the contract of the variant parser it takes
    one raw payload and an optional auxiliary table of users by id, inspects
    the payload's concrete schema type, selects the one variant registered
    for it and returns that variant populated from the payload and from the
    reference the table resolves; a type with no registered variant is an
    error, never a default object. *)
Definition _parse (p : Payload) (users : option (gmap Z Identity))
  : parse_error + MessageOrigin :=
  match registered (shape_of p) with
  | Some v =>
      inr {| kind := v;
             source := p;
             sender := ref ← user_ref p; table ← users; table !! ref |}
  | None => inl (SchemaDrift (shape_of p))
  end.

End Parser.

End MessageOriginFamily.

(** ** Sample collaborators

    A small concrete world on which the adapters can be run; these are
    stand-ins for the session and the parsers, not the library's own. *)

Module Demo.

#[export] Instance demo_schema : Schema := {|
  InputPeer := Z;
  datetime := Z;
  ParseMode := unit;
  MessageEntity := unit;
  RawEntity := Z;
  RawInvite := string;
  RawUser := Z * string;
  user_id := fst;
  ChatInviteLink := string * gmap Z (Z * string);
  TranslatedText := string * list Z;
  exn := string;
  IndexError := "IndexError";
  world := nat
|}.

(** Integer chat ids resolve to themselves, usernames are unknown. *)
Definition demo_resolve_peer (c : chat_ref) (w : nat) : nat * (string + Z) :=
  match c with
  | ChatInt n => (S w, inr n)
  | ChatStr s => (S w, inl "USERNAME_NOT_OCCUPIED")
  end.

(** The transport answers until it has served ten calls; a translation by
    ids answers positionally, a translation of texts echoes them. *)
Definition demo_invoke (q : raw_function) (w : nat)
  : nat * (string + response_of q) :=
  match q as q0 return nat * (string + response_of q0) with
  | FnEditExportedChatInvite q' =>
      if (10 <=? w)%nat then (S w, inl "FLOOD_WAIT")
      else (S w, inr {| invite := link q';
                         users := [(1%Z, "ann"); (2%Z, "bob")] |})
  | FnTranslateText q' =>
      if (10 <=? w)%nat then (S w, inl "FLOOD_WAIT")
      else (S w, inr {| tr_result :=
              match tt_id q' with
              | Some ids =>
                  List.map (fun n : Z => TextWithEntities "t" (Some [n])) ids
              | None => default [] (tt_text q')
              end |})
  end.

Definition demo_parse_text_entities (t : string) (m : option unit)
    (e : option (list unit)) (w : nat) : nat * (string + parsed_text) :=
  (w, inr {| pt_message := t; pt_entities := None |}).

Definition demo_datetime_to_timestamp (v : expire_arg) : option Z :=
  match v with
  | ExpDatetime d => Some d
  | _ => None
  end.

Definition demo_ChatInviteLink_parse (i : string) (us : gmap Z (Z * string))
  : string + (string * gmap Z (Z * string)) := inr (i, us).

(** An empty text cannot be parsed. *)
Definition demo_TranslatedText_parse (x : TextWithEntities_t)
  : string + (string * list Z) :=
  if bool_decide (text x = "") then inl "EMPTY_TEXT"
  else inr (text x, default [] (entities x)).

#[export] Instance demo_client : Collaborators := {|
  resolve_peer := demo_resolve_peer;
  invoke := demo_invoke;
  parse_text_entities := demo_parse_text_entities;
  datetime_to_timestamp := demo_datetime_to_timestamp;
  ChatInviteLink_parse := demo_ChatInviteLink_parse;
  TranslatedText_parse := demo_TranslatedText_parse
|}.

End Demo.

(** ** The packages' export tables *)

Module Exports.

(** The [from .module import Name] lines of
    [pyrogram/types/message_origin/__init__.py], as (module, name) pairs. *)
Definition message_origin_imports : list (string * string) :=
  [ ("message_origin", "MessageOrigin");
    ("message_origin_channel", "MessageOriginChannel");
    ("message_origin_chat", "MessageOriginChat");
    ("message_origin_hidden_user", "MessageOriginHiddenUser");
    ("message_origin_user", "MessageOriginUser");
    ("message_import_info", "MessageImportInfo") ].

(** The [from .module import Name] lines of
    [pyrogram/types/messages_and_media/__init__.py]. *)
Definition messages_and_media_imports : list (string * string) :=
  [
    ("animation", "Animation"); ("audio", "Audio");
    ("available_effect", "AvailableEffect");
    ("boosts_status", "BoostsStatus"); ("contact", "Contact");
    ("dice", "Dice"); ("document", "Document");
    ("forum_topic", "ForumTopic");
    ("forum_topic_closed", "ForumTopicClosed");
    ("forum_topic_created", "ForumTopicCreated");
    ("forum_topic_edited", "ForumTopicEdited");
    ("forum_topic_reopened", "ForumTopicReopened"); ("game", "Game");
    ("general_forum_topic_hidden", "GeneralTopicHidden");
    ("general_forum_topic_unhidden", "GeneralTopicUnhidden");
    ("giveaway", "Giveaway"); ("location", "Location");
    ("message", "Message"); ("message_entity", "MessageEntity");
    ("message_origin", "MessageOrigin");
    ("message_origin_channel", "MessageOriginChannel");
    ("message_origin_chat", "MessageOriginChat");
    ("message_origin_hidden_user", "MessageOriginHiddenUser");
    ("message_origin_import", "MessageOriginImport");
    ("message_origin_user", "MessageOriginUser");
    ("message_reactions", "MessageReactions");
    ("message_story", "MessageStory"); ("my_boost", "MyBoost");
    ("photo", "Photo"); ("poll", "Poll"); ("poll_option", "PollOption");
    ("reaction", "Reaction"); ("sticker", "Sticker");
    ("stickerset", "StickerSet"); ("story", "Story");
    ("story_deleted", "StoryDeleted"); ("story_skipped", "StorySkipped");
    ("story_views", "StoryViews");
    ("stripped_thumbnail", "StrippedThumbnail"); ("text_quote", "TextQuote");
    ("thumbnail", "Thumbnail"); ("translated_text", "TranslatedText");
    ("venue", "Venue"); ("video", "Video"); ("video_note", "VideoNote");
    ("voice", "Voice"); ("web_app_data", "WebAppData");
    ("web_page", "WebPage"); ("web_page_empty", "WebPageEmpty");
    ("web_page_preview", "WebPagePreview")
  ].

(** [__all__] of [pyrogram/types/messages_and_media/__init__.py] *)
Definition messages_and_media_all : list string :=
  [
    "Animation"; "Audio"; "BoostsStatus"; "Contact"; "Document";
    "ForumTopic"; "ForumTopicCreated"; "ForumTopicClosed";
    "ForumTopicReopened"; "ForumTopicEdited"; "GeneralTopicHidden";
    "GeneralTopicUnhidden"; "Game"; "Giveaway"; "Location"; "Message";
    "MessageEntity"; "Photo"; "Thumbnail"; "StrippedThumbnail"; "Story";
    "StoryDeleted"; "StorySkipped"; "StoryViews"; "Poll"; "PollOption";
    "Sticker"; "StickerSet"; "Venue"; "Video"; "VideoNote"; "Voice";
    "WebPage"; "Dice"; "Reaction"; "WebAppData"; "MessageReactions";
    "MessageStory"; "MyBoost"; "TranslatedText"; "MessageOriginImport";
    "MessageOrigin"; "MessageOriginChannel"; "MessageOriginChat";
    "MessageOriginHiddenUser"; "MessageOriginUser"; "TextQuote";
    "AvailableEffect"; "WebPageEmpty"; "WebPagePreview"
  ].

(** The names an [__init__] binds: one per import line. *)
Definition bound_names (imports : list (string * string)) : list string :=
  imports.*2.

(** The submodule a name is imported from. *)
Definition module_of (imports : list (string * string)) (name : string)
  : option string :=
  fst <$> List.find (fun i => bool_decide (i.2 = name)) imports.

End Exports.

(** ** Calls in a row *)

Section Sequencing.

Context {schema : Schema} {client : Collaborators}.

(** The calls of the three adapters. *)
Inductive adapter_call : forall A : Type, M A -> Prop :=
| call_edit chat lnk nm ex ml cjr :
    adapter_call ChatInviteLink (edit_chat_invite_link chat lnk nm ex ml cjr)
| call_translate_message lang chat mids :
    adapter_call translation (translate_message_text lang chat mids)
| call_translate_text lang txt pm ents :
    adapter_call translation (translate_text lang txt pm ents).

(** [a = await first; b = await second(a); return (a, b)] *)
Definition in_sequence {A B : Type} (first : M A) (second : A -> M B)
  : M (A * B) :=
  a ← first; b ← second a; mret (a, b).

End Sequencing.

(** * Properties *)

Section Properties.

Context {schema : Schema} {client : Collaborators}.

(** ** How a call unfolds *)

Ltac unfold_call :=
  unfold outcome, trace, run, edit_chat_invite_link, translate_message_text,
    translate_text, mbind, M_bind, await_resolve_peer, await_invoke,
    await_parse_text_entities, await, lift;
  simpl.

Ltac step_collaborator H := first [rewrite H | simpl; rewrite H]; simpl.

(** *** [edit_chat_invite_link] *)

Lemma run_edit_resolve_raises chat lnk nm ex ml cjr w w1 e :
  resolve_peer chat w = (w1, inl e) ->
  run (edit_chat_invite_link chat lnk nm ex ml cjr) w
  = (State w1 [EvResolvePeer chat], inl e).
Proof. intros Hr. unfold_call. step_collaborator Hr. reflexivity. Qed.

Lemma run_edit_invoke_raises chat lnk nm ex ml cjr w w1 p w2 e :
  resolve_peer chat w = (w1, inr p) ->
  invoke (edit_request p lnk nm ex ml cjr) w1 = (w2, inl e) ->
  run (edit_chat_invite_link chat lnk nm ex ml cjr) w
  = (State w2 [EvResolvePeer chat; EvInvoke (edit_request p lnk nm ex ml cjr)],
     inl e).
Proof.
  intros Hr Hi. unfold_call. step_collaborator Hr. step_collaborator Hi.
  reflexivity.
Qed.

Lemma run_edit_invoke_returns chat lnk nm ex ml cjr w w1 p w2
    (r : ExportedChatInvite_r) :
  resolve_peer chat w = (w1, inr p) ->
  invoke (edit_request p lnk nm ex ml cjr) w1 = (w2, inr r) ->
  run (edit_chat_invite_link chat lnk nm ex ml cjr) w
  = (State w2 [EvResolvePeer chat; EvInvoke (edit_request p lnk nm ex ml cjr)],
     ChatInviteLink_parse (invite r) (users_by_id (users r))).
Proof.
  intros Hr Hi. unfold_call. step_collaborator Hr. step_collaborator Hi.
  reflexivity.
Qed.

Lemma trace_edit chat lnk nm ex ml cjr w :
  trace (edit_chat_invite_link chat lnk nm ex ml cjr) w
  = EvResolvePeer chat ::
    match (resolve_peer chat w).2 with
    | inl _ => []
    | inr p => [EvInvoke (edit_request p lnk nm ex ml cjr)]
    end.
Proof.
  unfold trace.
  destruct (resolve_peer chat w) as [w1 [e | p]] eqn:Hr.
  - by rewrite (run_edit_resolve_raises _ _ _ _ _ _ _ _ _ Hr).
  - destruct (invoke (edit_request p lnk nm ex ml cjr) w1) as [w2 [e | r]] eqn:Hi.
    + by rewrite (run_edit_invoke_raises _ _ _ _ _ _ _ _ _ _ _ Hr Hi).
    + by rewrite (run_edit_invoke_returns _ _ _ _ _ _ _ _ _ _ _ Hr Hi).
Qed.

(** *** [translate_message_text] *)

Lemma run_translate_message_resolve_raises lang chat mids w w1 e :
  resolve_peer chat w = (w1, inl e) ->
  run (translate_message_text lang chat mids) w
  = (State w1 [EvResolvePeer chat], inl e).
Proof. intros Hr. unfold_call. step_collaborator Hr. reflexivity. Qed.

Lemma run_translate_message_invoke_raises lang chat mids w w1 p w2 e :
  resolve_peer chat w = (w1, inr p) ->
  invoke (translate_ids_request lang p (ids_of mids)) w1 = (w2, inl e) ->
  run (translate_message_text lang chat mids) w
  = (State w2 [EvResolvePeer chat;
               EvInvoke (translate_ids_request lang p (ids_of mids))],
     inl e).
Proof.
  intros Hr Hi. unfold_call. step_collaborator Hr. step_collaborator Hi.
  reflexivity.
Qed.

Lemma run_translate_message_invoke_returns lang chat mids w w1 p w2
    (r : TranslateResult_r) :
  resolve_peer chat w = (w1, inr p) ->
  invoke (translate_ids_request lang p (ids_of mids)) w1 = (w2, inr r) ->
  run (translate_message_text lang chat mids) w
  = (State w2 [EvResolvePeer chat;
               EvInvoke (translate_ids_request lang p (ids_of mids))],
     parse_translate_result r).
Proof.
  intros Hr Hi. unfold_call. step_collaborator Hr. step_collaborator Hi.
  reflexivity.
Qed.

Lemma trace_translate_message_text lang chat mids w :
  trace (translate_message_text lang chat mids) w
  = EvResolvePeer chat ::
    match (resolve_peer chat w).2 with
    | inl _ => []
    | inr p => [EvInvoke (translate_ids_request lang p (ids_of mids))]
    end.
Proof.
  unfold trace.
  destruct (resolve_peer chat w) as [w1 [e | p]] eqn:Hr.
  - by rewrite (run_translate_message_resolve_raises _ _ _ _ _ _ Hr).
  - destruct (invoke (translate_ids_request lang p (ids_of mids)) w1)
      as [w2 [e | r]] eqn:Hi.
    + by rewrite (run_translate_message_invoke_raises _ _ _ _ _ _ _ _ Hr Hi).
    + by rewrite (run_translate_message_invoke_returns _ _ _ _ _ _ _ _ Hr Hi).
Qed.

(** *** [translate_text] *)

Lemma run_translate_text_entities_raise lang txt pm ents w w1 e :
  parse_text_entities txt pm ents w = (w1, inl e) ->
  run (translate_text lang txt pm ents) w
  = (State w1 [EvParseTextEntities txt pm ents], inl e).
Proof. intros Hp. unfold_call. step_collaborator Hp. reflexivity. Qed.

Lemma run_translate_text_invoke_raises lang txt pm ents w w1 pt w2 e :
  parse_text_entities txt pm ents w = (w1, inr pt) ->
  invoke (translate_text_request lang pt) w1 = (w2, inl e) ->
  run (translate_text lang txt pm ents) w
  = (State w2 [EvParseTextEntities txt pm ents;
               EvInvoke (translate_text_request lang pt)],
     inl e).
Proof.
  intros Hp Hi. unfold_call. step_collaborator Hp. step_collaborator Hi.
  reflexivity.
Qed.

Lemma run_translate_text_invoke_returns lang txt pm ents w w1 pt w2
    (r : TranslateResult_r) :
  parse_text_entities txt pm ents w = (w1, inr pt) ->
  invoke (translate_text_request lang pt) w1 = (w2, inr r) ->
  run (translate_text lang txt pm ents) w
  = (State w2 [EvParseTextEntities txt pm ents;
               EvInvoke (translate_text_request lang pt)],
     parse_translate_result r).
Proof.
  intros Hp Hi. unfold_call. step_collaborator Hp. step_collaborator Hi.
  reflexivity.
Qed.

Lemma trace_translate_text lang txt pm ents w :
  trace (translate_text lang txt pm ents) w
  = EvParseTextEntities txt pm ents ::
    match (parse_text_entities txt pm ents w).2 with
    | inl _ => []
    | inr pt => [EvInvoke (translate_text_request lang pt)]
    end.
Proof.
  unfold trace.
  destruct (parse_text_entities txt pm ents w) as [w1 [e | pt]] eqn:Hp.
  - by rewrite (run_translate_text_entities_raise _ _ _ _ _ _ _ Hp).
  - destruct (invoke (translate_text_request lang pt) w1)
      as [w2 [e | r]] eqn:Hi.
    + by rewrite (run_translate_text_invoke_raises _ _ _ _ _ _ _ _ _ Hp Hi).
    + by rewrite (run_translate_text_invoke_returns _ _ _ _ _ _ _ _ _ Hp Hi).
Qed.

(** ** List comprehensions and the result envelope *)

Lemma comprehension_inr {A B : Type} (f : A -> result B) l ys :
  comprehension f l = inr ys <-> Forall2 (fun x y => f x = inr y) l ys.
Proof.
  revert ys. induction l as [| x l IH]; intros ys; simpl.
  - split.
    + intros [= <-]. constructor.
    + intros Hf. by inversion Hf.
  - destruct (f x) as [e | y] eqn:Hx.
    + split; [done |]. intros Hf. inversion Hf; congruence.
    + destruct (comprehension f l) as [e | ys'] eqn:Hl.
      * split; [done |]. intros Hf. inversion Hf as [| ? y' ? ys'' Hy Hr]; subst.
        apply IH in Hr. discriminate.
      * split.
        -- intros [= <-]. constructor; [done |]. by apply IH.
        -- intros Hf. inversion Hf as [| ? y' ? ys'' Hy Hr]; subst.
           apply IH in Hr. congruence.
Qed.

Lemma comprehension_inl {A B : Type} (f : A -> result B) l e :
  comprehension f l = inl e <->
  exists l1 x l2,
    l = l1 ++ x :: l2 /\ Forall (fun y => exists t, f y = inr t) l1 /\ f x = inl e.
Proof.
  induction l as [| x l IH]; simpl.
  - split; [done |]. intros (l1 & x & l2 & Hl & _). by destruct l1.
  - destruct (f x) as [e' | y] eqn:Hx.
    + split.
      * intros [= ->]. exists [], x, l. by repeat split.
      * intros (l1 & x' & l2 & Hl & Hok & Hbad).
        destruct l1 as [| z l1]; simpl in Hl; injection Hl as -> ->.
        -- congruence.
        -- inversion Hok as [| ? ? [t Ht] _]; subst. congruence.
    + destruct (comprehension f l) as [e' | ys] eqn:Hl.
      * split.
        -- intros [= ->]. destruct (proj1 IH eq_refl) as (l1 & x' & l2 & -> & Hok & Hbad).
           exists (x :: l1), x', l2. repeat split; [| done].
           constructor; [by exists y | done].
        -- intros (l1 & x' & l2 & Hl' & Hok & Hbad).
           destruct l1 as [| z l1]; simpl in Hl'; injection Hl' as -> ->.
           ++ congruence.
           ++ inversion Hok; subst. f_equal.
              assert (Hi : @inl exn (list B) e' = inl e); [| by injection Hi].
              apply IH. by exists l1, x', l2.
      * split; [done |].
        intros (l1 & x' & l2 & Hl' & Hok & Hbad).
        destruct l1 as [| z l1]; simpl in Hl'; injection Hl' as -> ->.
        -- congruence.
        -- inversion Hok; subst.
           assert (Hi : @inr exn (list B) ys = inl e); [| done].
           apply IH. by exists l1, x', l2.
Qed.

Lemma parse_translate_result_one r x :
  tr_result r = [x] ->
  parse_translate_result r = Single <$> TranslatedText_parse x.
Proof. intros Hx. unfold parse_translate_result. by rewrite Hx. Qed.

Lemma parse_translate_result_many r :
  length (tr_result r) <> 1%nat ->
  parse_translate_result r
  = Many <$> comprehension TranslatedText_parse (tr_result r).
Proof.
  intros Hn. unfold parse_translate_result.
  by rewrite bool_decide_eq_false_2.
Qed.

Lemma length_one {A : Type} (l : list A) :
  length l = 1%nat -> exists x, l = [x].
Proof. destruct l as [| x [| y l]]; [done | by exists x | done]. Qed.

(** ** The user table *)

Lemma users_by_id_snoc us u :
  users_by_id (us ++ [u]) = <[user_id u := u]> (users_by_id us).
Proof. unfold users_by_id. by rewrite foldl_app. Qed.

(** The table sends an id to the last user of the list that carries it. *)
Lemma users_by_id_lookup us k :
  users_by_id us !! k = last (filter (fun u => user_id u = k) us).
Proof.
  induction us as [| u us IH] using rev_ind; [done |].
  rewrite users_by_id_snoc, filter_app, lookup_insert.
  case_decide as Hk.
  - rewrite filter_cons_True, filter_nil by done. by rewrite last_snoc.
  - rewrite filter_cons_False, filter_nil by done. by rewrite app_nil_r.
Qed.

Lemma users_by_id_member us u :
  u ∈ us ->
  exists u', users_by_id us !! user_id u = Some u' /\ u' ∈ us /\ user_id u' = user_id u.
Proof.
  intros Hu. rewrite users_by_id_lookup.
  assert (Hin : u ∈ filter (fun v => user_id v = user_id u) us)
    by (by apply list_elem_of_filter).
  destruct (last (filter (fun v => user_id v = user_id u) us)) as [u' |] eqn:Hl.
  - exists u'. split; [done |].
    apply last_Some in Hl as [l' Hl].
    assert (Hu' : u' ∈ filter (fun v => user_id v = user_id u) us)
      by (rewrite Hl; set_solver).
    by apply list_elem_of_filter in Hu' as [? ?].
  - apply last_None in Hl. rewrite Hl in Hin. by apply elem_of_nil in Hin.
Qed.

Lemma users_by_id_unique us u :
  NoDup (user_id <$> us) -> u ∈ us -> users_by_id us !! user_id u = Some u.
Proof.
  induction us as [| v us IH] using rev_ind; intros Hnd Hu.
  - by apply elem_of_nil in Hu.
  - rewrite users_by_id_snoc.
    rewrite fmap_app in Hnd. apply NoDup_app in Hnd as (Hnd & Hfresh & _).
    apply elem_of_app in Hu as [Hu | Hu].
    + rewrite lookup_insert_ne; [by apply IH |].
      intros Heq. apply (Hfresh (user_id u)).
      * apply list_elem_of_fmap. by exists u.
      * rewrite <- Heq. set_solver.
    + apply list_elem_of_singleton in Hu as ->. by rewrite lookup_insert_eq.
Qed.

Lemma users_by_id_key us k u :
  users_by_id us !! k = Some u -> u ∈ us /\ user_id u = k.
Proof.
  rewrite users_by_id_lookup. intros Hl.
  apply last_Some in Hl as [l' Hl].
  assert (Hu : u ∈ filter (fun v => user_id v = k) us) by (rewrite Hl; set_solver).
  by apply list_elem_of_filter in Hu as [? ?].
Qed.

(** ** Cardinality of translation results *)

(** C1.  When the raw response of a translation call carries exactly one
    result [x], both [translate_message_text] and [translate_text] return
    what [TranslatedText._parse] makes of [x], as a single object and never
    as a list; if [_parse] raises, so does the call.  In particular a call
    with one identifier whose response holds as many results as identifiers
    returns a single object. *)
Theorem translate_one_result_is_single lang r :
  length (tr_result r) = 1%nat ->
  exists x,
    tr_result r = [x] /\
    (forall chat mids w w1 p w2,
        resolve_peer chat w = (w1, inr p) ->
        invoke (translate_ids_request lang p (ids_of mids)) w1 = (w2, inr r) ->
        outcome (translate_message_text lang chat mids) w
        = Single <$> TranslatedText_parse x) /\
    (forall txt pm ents w w1 pt w2,
        parse_text_entities txt pm ents w = (w1, inr pt) ->
        invoke (translate_text_request lang pt) w1 = (w2, inr r) ->
        outcome (translate_text lang txt pm ents) w
        = Single <$> TranslatedText_parse x) /\
    (forall t, TranslatedText_parse x = inr t ->
        Single <$> TranslatedText_parse x = inr (Single t)) /\
    (forall l, Single <$> TranslatedText_parse x <> inr (Many l)) /\
    (forall chat n w w1 p w2,
        resolve_peer chat w = (w1, inr p) ->
        invoke (translate_ids_request lang p (ids_of (OneId n))) w1 = (w2, inr r) ->
        length (tr_result r) = length (ids_of (OneId n)) /\
        outcome (translate_message_text lang chat (OneId n)) w
        = Single <$> TranslatedText_parse x).
Proof.
  intros Hlen. destruct (length_one _ Hlen) as [x Hx]. exists x.
  assert (Hmsg : forall chat mids w w1 p w2,
    resolve_peer chat w = (w1, inr p) ->
    invoke (translate_ids_request lang p (ids_of mids)) w1 = (w2, inr r) ->
    outcome (translate_message_text lang chat mids) w
    = Single <$> TranslatedText_parse x).
  { intros chat mids w w1 p w2 Hr Hi. unfold outcome.
    rewrite (run_translate_message_invoke_returns _ _ _ _ _ _ _ _ Hr Hi).
    by apply parse_translate_result_one. }
  split; [done |]. split; [done |]. split; [| split; [| split]].
  - intros txt pm ents w w1 pt w2 Hp Hi. unfold outcome.
    rewrite (run_translate_text_invoke_returns _ _ _ _ _ _ _ _ _ Hp Hi).
    by apply parse_translate_result_one.
  - by intros t ->.
  - intros l. by destruct (TranslatedText_parse x).
  - intros chat n w w1 p w2 Hr Hi. split; [done |]. by eapply Hmsg.
Qed.

(** C2.  When the raw response of [translate_message_text] carries two or
    more results, the call returns a list with one [TranslatedText] per raw
    result, the i-th being [TranslatedText._parse] of the i-th raw result;
    it does return as soon as every result parses.  When the transport
    answers positionally (the i-th result translates the i-th identifier),
    the list follows the order of the identifiers. *)
Theorem translate_many_results_in_order lang chat mids w w1 p w2
    (r : TranslateResult_r) :
  resolve_peer chat w = (w1, inr p) ->
  invoke (translate_ids_request lang p (ids_of mids)) w1 = (w2, inr r) ->
  (2 <= length (tr_result r))%nat ->
  (forall l,
      Forall2 (fun x t => TranslatedText_parse x = inr t) (tr_result r) l ->
      outcome (translate_message_text lang chat mids) w = inr (Many l)) /\
  (Forall (fun x => exists t, TranslatedText_parse x = inr t) (tr_result r) ->
      exists l, outcome (translate_message_text lang chat mids) w = inr (Many l)) /\
  (forall v,
      outcome (translate_message_text lang chat mids) w = inr v ->
      exists l,
        v = Many l /\
        length l = length (tr_result r) /\
        forall i x, tr_result r !! i = Some x ->
          exists t, l !! i = Some t /\ TranslatedText_parse x = inr t) /\
  (forall (translates : Z -> TextWithEntities_t -> Prop) v,
      Forall2 translates (ids_of mids) (tr_result r) ->
      outcome (translate_message_text lang chat mids) w = inr v ->
      exists l,
        v = Many l /\
        length l = length (ids_of mids) /\
        Forall2 (fun n t => exists x, translates n x /\ TranslatedText_parse x = inr t)
          (ids_of mids) l).
Proof.
  intros Hr Hi Hlen.
  assert (Hout : outcome (translate_message_text lang chat mids) w
                 = Many <$> comprehension TranslatedText_parse (tr_result r)).
  { unfold outcome.
    rewrite (run_translate_message_invoke_returns _ _ _ _ _ _ _ _ Hr Hi).
    apply parse_translate_result_many. lia. }
  assert (Hret : forall v,
    outcome (translate_message_text lang chat mids) w = inr v ->
    exists l, v = Many l /\
      Forall2 (fun x t => TranslatedText_parse x = inr t) (tr_result r) l).
  { intros v. rewrite Hout.
    destruct (comprehension TranslatedText_parse (tr_result r)) as [e | l] eqn:Hc;
      [done |].
    intros [= <-]. exists l. split; [done |]. by apply comprehension_inr. }
  assert (Hall : forall l,
    Forall2 (fun x t => TranslatedText_parse x = inr t) (tr_result r) l ->
    outcome (translate_message_text lang chat mids) w = inr (Many l)).
  { intros l Hl. apply comprehension_inr in Hl. by rewrite Hout, Hl. }
  split; [exact Hall |]. split; [| split].
  - intros Hok. apply Forall_exists_Forall2_l in Hok as [l Hl].
    exists l. by apply Hall.
  - intros v Hv. destruct (Hret v Hv) as (l & -> & Hl). exists l.
    split; [done |]. split; [symmetry; exact (Forall2_length _ _ _ Hl) |].
    intros i x Hx. exact (Forall2_lookup_l _ _ _ _ _ Hl Hx).
  - intros translates v Hpos Hv. destruct (Hret v Hv) as (l & -> & Hl).
    exists l. split; [done |]. split.
    + rewrite (Forall2_length _ _ _ Hpos). symmetry. exact (Forall2_length _ _ _ Hl).
    + eapply Forall2_trans; [| exact Hpos | exact Hl].
      intros n x t Hn Ht. by exists x.
Qed.

(** ** Optional fields of the invite-link edit *)

(** C3.  [edit_chat_invite_link] puts [utils.datetime_to_timestamp(expire_date)]
    in the [expire_date] field of its request, so a value for which the
    helper answers as it does for [None] cannot be told from leaving the
    keyword out; whatever the helper, passing [expire_date=None], as the
    docstring says to do "to set no expiration date", is the very call that
    leaves the keyword out. *)
Theorem edit_expire_none_is_omission chat lnk kn kml kcjr w :
  run (call_edit_chat_invite_link chat lnk kn (Some ExpNone) kml kcjr) w
  = run (call_edit_chat_invite_link chat lnk kn None kml kcjr) w /\
  (forall v,
      datetime_to_timestamp v = datetime_to_timestamp ExpNone ->
      run (call_edit_chat_invite_link chat lnk kn (Some v) kml kcjr) w
      = run (call_edit_chat_invite_link chat lnk kn None kml kcjr) w) /\
  (forall v,
      sent_requests (trace (call_edit_chat_invite_link chat lnk kn (Some v) kml kcjr) w)
      = match (resolve_peer chat w).2 with
        | inl _ => []
        | inr p =>
            [FnEditExportedChatInvite
               (EditExportedChatInvite p lnk (datetime_to_timestamp v)
                  (bind_kw None kml) (bind_kw None kn) (bind_kw None kcjr))]
        end).
Proof.
  split; [reflexivity |]. split.
  - intros v Hv.
    unfold call_edit_chat_invite_link, edit_chat_invite_link, edit_request.
    simpl. by rewrite Hv.
  - intros v. unfold call_edit_chat_invite_link. rewrite trace_edit. simpl.
    by destruct (resolve_peer chat w).2.
Qed.

(** C4.  [edit_chat_invite_link] forwards [member_limit] verbatim as the
    [usage_limit] of its request, whatever integer it is: [member_limit=0]
    gives [usage_limit = 0], leaving the keyword out gives [None], and the
    two requests differ. *)
Theorem edit_member_limit_forwarded chat lnk kn ke kml kcjr w w1 p :
  resolve_peer chat w = (w1, inr p) ->
  (exists q,
      sent_requests (trace (call_edit_chat_invite_link chat lnk kn ke kml kcjr) w)
      = [FnEditExportedChatInvite q] /\
      usage_limit q = bind_kw None kml /\
      (forall n : Z, kml = Some (Some n) -> usage_limit q = Some n) /\
      (kml = Some (Some 0%Z) -> usage_limit q = Some 0%Z) /\
      (kml = None -> usage_limit q = None)) /\
  sent_requests
    (trace (call_edit_chat_invite_link chat lnk kn ke (Some (Some 0%Z)) kcjr) w)
  <> sent_requests
    (trace (call_edit_chat_invite_link chat lnk kn ke None kcjr) w).
Proof.
  intros Hr. unfold call_edit_chat_invite_link. rewrite !trace_edit, Hr.
  simpl. split.
  - eexists. split; [reflexivity |]. simpl.
    split; [done |]. split; [by intros n -> |]. split; by intros ->.
  - unfold edit_request. intros [=].
Qed.

(** ** The request of [translate_message_text] *)

(** C6.  Once the peer is resolved, [translate_message_text] hands exactly
    one request to the transport, a [TranslateText] whose [id] is
    [[message_ids]] for a single integer and the list itself, unchanged, for
    a list. *)
Theorem translate_message_text_one_request lang chat mids w w1 p :
  resolve_peer chat w = (w1, inr p) ->
  exists q,
    sent_requests (trace (translate_message_text lang chat mids) w)
    = [FnTranslateText q] /\
    to_lang q = lang /\
    tt_peer q = Some p /\
    tt_text q = None /\
    (forall n, mids = OneId n -> tt_id q = Some [n]) /\
    (forall l, mids = IdList l -> tt_id q = Some l).
Proof.
  intros Hr. rewrite trace_translate_message_text, Hr. simpl.
  eexists. split; [reflexivity |]. simpl.
  repeat split; by intros ? ->.
Qed.

(** C10.  [translate_text] never sends a null entity list: the
    [TextWithEntities] of its request carries a list, which is empty when
    [parse_text_entities] produced [None] or an empty list and is the
    produced list otherwise. *)
Theorem translate_text_entities_never_null lang txt pm ents w w1 pt :
  parse_text_entities txt pm ents w = (w1, inr pt) ->
  exists l,
    sent_requests (trace (translate_text lang txt pm ents) w)
    = [FnTranslateText
         (TranslateText lang None None
            (Some [TextWithEntities (pt_message pt) (Some l)]))] /\
    (pt_entities pt = None -> l = []) /\
    (pt_entities pt = Some [] -> l = []) /\
    (forall l', pt_entities pt = Some l' -> l = l').
Proof.
  intros Hp. rewrite trace_translate_text, Hp. simpl.
  unfold translate_text_request.
  destruct (pt_entities pt) as [[| x xs] |] eqn:He; simpl;
    [exists [] | exists (x :: xs) | exists []];
    (split; [reflexivity |]; split; [done |]; split; [done |]);
    intros l' Hl'; by simplify_eq.
Qed.

(** ** The auxiliary user table *)

(** C7.  When the transport answers, [edit_chat_invite_link] returns
    [ChatInviteLink._parse] of the response's invite and of the table built
    from the response's users.  The table is keyed by user id: it sends the
    id of every listed user to the last listed user with that id, which is
    the user itself when the listed ids are pairwise distinct, and it holds
    nothing but listed users under their own ids. *)
Theorem edit_threads_user_table chat lnk nm ex ml cjr w w1 p w2
    (r : ExportedChatInvite_r) :
  resolve_peer chat w = (w1, inr p) ->
  invoke (edit_request p lnk nm ex ml cjr) w1 = (w2, inr r) ->
  outcome (edit_chat_invite_link chat lnk nm ex ml cjr) w
  = ChatInviteLink_parse (invite r) (users_by_id (users r)) /\
  (forall u, u ∈ users r ->
      users_by_id (users r) !! user_id u
      = last (filter (fun v => user_id v = user_id u) (users r))) /\
  (forall u, u ∈ users r ->
      exists u', users_by_id (users r) !! user_id u = Some u' /\
                 u' ∈ users r /\ user_id u' = user_id u) /\
  (NoDup (user_id <$> users r) ->
      forall u, u ∈ users r -> users_by_id (users r) !! user_id u = Some u) /\
  (forall k u, users_by_id (users r) !! k = Some u ->
      u ∈ users r /\ user_id u = k).
Proof.
  intros Hr Hi. split.
  - unfold outcome. by rewrite (run_edit_invoke_returns _ _ _ _ _ _ _ _ _ _ _ Hr Hi).
  - split; [intros u _; apply users_by_id_lookup |].
    split; [apply users_by_id_member |].
    split; [intros Hnd u; by apply users_by_id_unique |].
    apply users_by_id_key.
Qed.

(** ** Failures *)

Lemma parse_translate_result_raises r e :
  parse_translate_result r = inl e <->
  exists l1 x l2,
    tr_result r = l1 ++ x :: l2 /\
    Forall (fun y => exists t, TranslatedText_parse y = inr t) l1 /\
    TranslatedText_parse x = inl e.
Proof.
  unfold parse_translate_result. case_bool_decide as Hlen.
  - destruct (length_one _ Hlen) as [x Hx]. rewrite Hx. simpl.
    destruct (TranslatedText_parse x) as [e' | t] eqn:Hpx; simpl.
    + split.
      * intros [= ->]. exists [], x, []. by repeat split.
      * intros (l1 & x' & l2 & Hl & Hok & Hbad).
        destruct l1 as [| z [| ? ?]]; simplify_eq/=. congruence.
    + split; [done |].
      intros (l1 & x' & l2 & Hl & Hok & Hbad).
      destruct l1 as [| z [| ? ?]]; simplify_eq/=. congruence.
  - rewrite <- comprehension_inl. unfold fmap, result_fmap.
    destruct (comprehension TranslatedText_parse (tr_result r));
      split; congruence.
Qed.

Ltac merge_equations :=
  repeat match goal with
         | H : ?t = _, H' : ?t = _ |- _ => rewrite H in H'; simplify_eq
         end.

Ltac settle_outcome :=
  simpl; split;
  [ intros ?; simplify_eq; eauto 12
  | intros ?;
    repeat match goal with
           | H : _ \/ _ |- _ => destruct H
           | H : exists _, _ |- _ => destruct H
           | H : _ /\ _ |- _ => destruct H
           end;
    simplify_eq; merge_equations; done ].

(** C8.  The adapters recover nothing: a call raises [e] exactly when peer
    resolution (for [translate_text], text parsing), the transport or the
    final [_parse] raised that same [e], each step having been reached
    because the ones before it returned; and a call returns [v] exactly when
    all of them returned and [v] is what the final parse produced.  A list
    of results is parsed whole or not at all: the first [_parse] that raises
    among the results decides the outcome. *)
Theorem adapters_propagate_failures :
  (forall chat lnk nm ex ml cjr w e,
      outcome (edit_chat_invite_link chat lnk nm ex ml cjr) w = inl e <->
      (exists w1, resolve_peer chat w = (w1, inl e)) \/
      (exists w1 p w2,
          resolve_peer chat w = (w1, inr p) /\
          invoke (edit_request p lnk nm ex ml cjr) w1 = (w2, inl e)) \/
      (exists w1 p w2 (r : ExportedChatInvite_r),
          resolve_peer chat w = (w1, inr p) /\
          invoke (edit_request p lnk nm ex ml cjr) w1 = (w2, inr r) /\
          ChatInviteLink_parse (invite r) (users_by_id (users r)) = inl e)) /\
  (forall chat lnk nm ex ml cjr w v,
      outcome (edit_chat_invite_link chat lnk nm ex ml cjr) w = inr v <->
      exists w1 p w2 (r : ExportedChatInvite_r),
        resolve_peer chat w = (w1, inr p) /\
        invoke (edit_request p lnk nm ex ml cjr) w1 = (w2, inr r) /\
        ChatInviteLink_parse (invite r) (users_by_id (users r)) = inr v) /\
  (forall lang chat mids w e,
      outcome (translate_message_text lang chat mids) w = inl e <->
      (exists w1, resolve_peer chat w = (w1, inl e)) \/
      (exists w1 p w2,
          resolve_peer chat w = (w1, inr p) /\
          invoke (translate_ids_request lang p (ids_of mids)) w1 = (w2, inl e)) \/
      (exists w1 p w2 (r : TranslateResult_r),
          resolve_peer chat w = (w1, inr p) /\
          invoke (translate_ids_request lang p (ids_of mids)) w1 = (w2, inr r) /\
          parse_translate_result r = inl e)) /\
  (forall lang chat mids w v,
      outcome (translate_message_text lang chat mids) w = inr v <->
      exists w1 p w2 (r : TranslateResult_r),
        resolve_peer chat w = (w1, inr p) /\
        invoke (translate_ids_request lang p (ids_of mids)) w1 = (w2, inr r) /\
        parse_translate_result r = inr v) /\
  (forall lang txt pm ents w e,
      outcome (translate_text lang txt pm ents) w = inl e <->
      (exists w1, parse_text_entities txt pm ents w = (w1, inl e)) \/
      (exists w1 pt w2,
          parse_text_entities txt pm ents w = (w1, inr pt) /\
          invoke (translate_text_request lang pt) w1 = (w2, inl e)) \/
      (exists w1 pt w2 (r : TranslateResult_r),
          parse_text_entities txt pm ents w = (w1, inr pt) /\
          invoke (translate_text_request lang pt) w1 = (w2, inr r) /\
          parse_translate_result r = inl e)) /\
  (forall lang txt pm ents w v,
      outcome (translate_text lang txt pm ents) w = inr v <->
      exists w1 pt w2 (r : TranslateResult_r),
        parse_text_entities txt pm ents w = (w1, inr pt) /\
        invoke (translate_text_request lang pt) w1 = (w2, inr r) /\
        parse_translate_result r = inr v) /\
  (forall r e,
      parse_translate_result r = inl e <->
      exists l1 x l2,
        tr_result r = l1 ++ x :: l2 /\
        Forall (fun y => exists t, TranslatedText_parse y = inr t) l1 /\
        TranslatedText_parse x = inl e).
Proof.
  repeat apply conj.
  - intros chat lnk nm ex ml cjr w e. unfold outcome.
    destruct (resolve_peer chat w) as [w1 [e1 | p]] eqn:Hr.
    + rewrite (run_edit_resolve_raises _ _ _ _ _ _ _ _ _ Hr). settle_outcome.
    + destruct (invoke (edit_request p lnk nm ex ml cjr) w1)
        as [w2 [e2 | r]] eqn:Hi.
      * rewrite (run_edit_invoke_raises _ _ _ _ _ _ _ _ _ _ _ Hr Hi). settle_outcome.
      * rewrite (run_edit_invoke_returns _ _ _ _ _ _ _ _ _ _ _ Hr Hi). settle_outcome.
  - intros chat lnk nm ex ml cjr w v. unfold outcome.
    destruct (resolve_peer chat w) as [w1 [e1 | p]] eqn:Hr.
    + rewrite (run_edit_resolve_raises _ _ _ _ _ _ _ _ _ Hr). settle_outcome.
    + destruct (invoke (edit_request p lnk nm ex ml cjr) w1)
        as [w2 [e2 | r]] eqn:Hi.
      * rewrite (run_edit_invoke_raises _ _ _ _ _ _ _ _ _ _ _ Hr Hi). settle_outcome.
      * rewrite (run_edit_invoke_returns _ _ _ _ _ _ _ _ _ _ _ Hr Hi). settle_outcome.
  - intros lang chat mids w e. unfold outcome.
    destruct (resolve_peer chat w) as [w1 [e1 | p]] eqn:Hr.
    + rewrite (run_translate_message_resolve_raises _ _ _ _ _ _ Hr). settle_outcome.
    + destruct (invoke (translate_ids_request lang p (ids_of mids)) w1)
        as [w2 [e2 | r]] eqn:Hi.
      * rewrite (run_translate_message_invoke_raises _ _ _ _ _ _ _ _ Hr Hi).
        settle_outcome.
      * rewrite (run_translate_message_invoke_returns _ _ _ _ _ _ _ _ Hr Hi).
        settle_outcome.
  - intros lang chat mids w v. unfold outcome.
    destruct (resolve_peer chat w) as [w1 [e1 | p]] eqn:Hr.
    + rewrite (run_translate_message_resolve_raises _ _ _ _ _ _ Hr). settle_outcome.
    + destruct (invoke (translate_ids_request lang p (ids_of mids)) w1)
        as [w2 [e2 | r]] eqn:Hi.
      * rewrite (run_translate_message_invoke_raises _ _ _ _ _ _ _ _ Hr Hi).
        settle_outcome.
      * rewrite (run_translate_message_invoke_returns _ _ _ _ _ _ _ _ Hr Hi).
        settle_outcome.
  - intros lang txt pm ents w e. unfold outcome.
    destruct (parse_text_entities txt pm ents w) as [w1 [e1 | pt]] eqn:Hp.
    + rewrite (run_translate_text_entities_raise _ _ _ _ _ _ _ Hp). settle_outcome.
    + destruct (invoke (translate_text_request lang pt) w1)
        as [w2 [e2 | r]] eqn:Hi.
      * rewrite (run_translate_text_invoke_raises _ _ _ _ _ _ _ _ _ Hp Hi).
        settle_outcome.
      * rewrite (run_translate_text_invoke_returns _ _ _ _ _ _ _ _ _ Hp Hi).
        settle_outcome.
  - intros lang txt pm ents w v. unfold outcome.
    destruct (parse_text_entities txt pm ents w) as [w1 [e1 | pt]] eqn:Hp.
    + rewrite (run_translate_text_entities_raise _ _ _ _ _ _ _ Hp). settle_outcome.
    + destruct (invoke (translate_text_request lang pt) w1)
        as [w2 [e2 | r]] eqn:Hi.
      * rewrite (run_translate_text_invoke_raises _ _ _ _ _ _ _ _ _ Hp Hi).
        settle_outcome.
      * rewrite (run_translate_text_invoke_returns _ _ _ _ _ _ _ _ _ Hp Hi).
        settle_outcome.
  - apply parse_translate_result_raises.
Qed.

(** ** Awaited calls *)

(** C9.  The awaited calls of an adapter, in order.  [edit_chat_invite_link]
    and [translate_message_text] await [resolve_peer] once and then, when it
    returned a peer, the transport once, with the one request built for that
    peer; [translate_text] awaits [parse_text_entities] once and then, when
    it returned, the transport once, and never awaits [resolve_peer].  No
    call awaits the transport twice. *)
Theorem adapters_await_pattern :
  (forall chat lnk nm ex ml cjr w,
      let t := trace (edit_chat_invite_link chat lnk nm ex ml cjr) w in
      t = EvResolvePeer chat ::
          match (resolve_peer chat w).2 with
          | inl _ => []
          | inr p => [EvInvoke (edit_request p lnk nm ex ml cjr)]
          end /\
      resolve_count t = 1%nat /\
      (length (sent_requests t) <= 1)%nat /\
      (forall w1 p, resolve_peer chat w = (w1, inr p) ->
          sent_requests t = [edit_request p lnk nm ex ml cjr])) /\
  (forall lang chat mids w,
      let t := trace (translate_message_text lang chat mids) w in
      t = EvResolvePeer chat ::
          match (resolve_peer chat w).2 with
          | inl _ => []
          | inr p => [EvInvoke (translate_ids_request lang p (ids_of mids))]
          end /\
      resolve_count t = 1%nat /\
      (length (sent_requests t) <= 1)%nat /\
      (forall w1 p, resolve_peer chat w = (w1, inr p) ->
          sent_requests t = [translate_ids_request lang p (ids_of mids)])) /\
  (forall lang txt pm ents w,
      let t := trace (translate_text lang txt pm ents) w in
      t = EvParseTextEntities txt pm ents ::
          match (parse_text_entities txt pm ents w).2 with
          | inl _ => []
          | inr pt => [EvInvoke (translate_text_request lang pt)]
          end /\
      resolve_count t = 0%nat /\
      (length (sent_requests t) <= 1)%nat /\
      (forall w1 pt, parse_text_entities txt pm ents w = (w1, inr pt) ->
          sent_requests t = [translate_text_request lang pt])).
Proof.
  split; [| split].
  - intros chat lnk nm ex ml cjr w t. subst t. rewrite trace_edit.
    split; [done |].
    destruct (resolve_peer chat w) as [w1 [e | p]]; simpl;
      (split; [done |]); (split; [lia |]); intros ? ? ?; by simplify_eq.
  - intros lang chat mids w t. subst t. rewrite trace_translate_message_text.
    split; [done |].
    destruct (resolve_peer chat w) as [w1 [e | p]]; simpl;
      (split; [done |]); (split; [lia |]); intros ? ? ?; by simplify_eq.
  - intros lang txt pm ents w t. subst t. rewrite trace_translate_text.
    split; [done |].
    destruct (parse_text_entities txt pm ents w) as [w1 [e | pt]]; simpl;
      (split; [done |]); (split; [lia |]); intros ? ? ?; by simplify_eq.
Qed.

End Properties.

(** ** The variant parser *)

Section VariantParser.

Import MessageOriginFamily.

Context {Payload Identity : Type}.
Context (shape_of : Payload -> raw_shape).
Context (user_ref : Payload -> option Z).

#[local] Abbreviation parse := (_parse (Identity := Identity) shape_of user_ref).

Lemma registered_family s v :
  registered s = Some v <-> (s, v) ∈ registry.
Proof.
  unfold registry. rewrite !elem_of_cons, elem_of_nil.
  destruct s, v; vm_compute; split; intros Hs;
    repeat match goal with
           | H : _ \/ _ |- _ => destruct H
           end;
    try discriminate; try done; auto 10.
Qed.

Lemma registered_foreign name : registered (ShapeForeign name) = None.
Proof. reflexivity. Qed.

(** C5.  The parser dispatches on the payload's concrete type alone.  A
    payload of one of the five shapes of the family is returned as the
    variant matching its shape (Channel, Chat, HiddenUser, User, Import),
    populated from that payload and from the auxiliary table; no shape is
    registered twice, two payloads get the same variant only when they have
    the same shape, and each of the five variants is returned for its own
    shape and for no other.  A payload of any other concrete type is
    answered with an error and never with an object, so a payload is parsed
    exactly when its type belongs to the family. *)
Theorem parse_returns_the_matching_variant :
  (forall p users,
      let built v :=
        inr {| kind := v; source := p;
               sender := ref ← user_ref p; table ← users; table !! ref |} in
      (shape_of p = ShapeChannel -> parse p users = built Channel) /\
      (shape_of p = ShapeChat -> parse p users = built Chat) /\
      (shape_of p = ShapeHiddenUser -> parse p users = built HiddenUser) /\
      (shape_of p = ShapeUser -> parse p users = built User) /\
      (shape_of p = ShapeImport -> parse p users = built Import)) /\
  (forall p users name,
      shape_of p = ShapeForeign name ->
      parse p users = inl (SchemaDrift (ShapeForeign name)) /\
      forall o, parse p users <> inr o) /\
  (forall p users,
      (exists o, parse p users = inr o) <->
      (forall name, shape_of p <> ShapeForeign name)) /\
  (forall p users o,
      parse p users = inr o ->
      (shape_of p, kind o) ∈ registry /\ source o = p) /\
  (forall p p' users users' o o',
      parse p users = inr o -> parse p' users' = inr o' ->
      (kind o = kind o' <-> shape_of p = shape_of p')) /\
  (forall v, exists s,
      registered s = Some v /\ forall s', registered s' = Some v -> s' = s) /\
  NoDup registry.*1 /\
  registry.*2 ≡ₚ all_variants /\
  class_name <$> registry.*2 ⊆ messages_and_media_origin_names.
Proof.
  assert (Hret : forall p users o,
    parse p users = inr o -> registered (shape_of p) = Some (kind o) /\ source o = p).
  { intros p users o. unfold _parse.
    destruct (registered (shape_of p)) as [v |]; [| done]. by intros [= <-]. }
  assert (Hinj : forall s s' v,
    registered s = Some v -> registered s' = Some v -> s = s').
  { intros s s' v. by destruct s, s', v. }
  repeat apply conj.
  - intros p users built. unfold _parse. repeat split; by intros ->.
  - intros p users name Hs. unfold _parse. rewrite Hs. by split.
  - intros p users. unfold _parse. split.
    + intros [o Ho] name Hs. by rewrite Hs in Ho.
    + intros Hfam. destruct (shape_of p) as [| | | | | name] eqn:Hs;
        try (by eexists). by destruct (Hfam name).
  - intros p users o Ho. destruct (Hret _ _ _ Ho) as [Hk Hsrc].
    split; [by apply registered_family | done].
  - intros p p' users users' o o' Ho Ho'.
    destruct (Hret _ _ _ Ho) as [Hk _]. destruct (Hret _ _ _ Ho') as [Hk' _].
    split.
    + intros Heq. rewrite <- Heq in Hk'. by eapply Hinj.
    + intros Heq. rewrite Heq in Hk. congruence.
  - intros v.
    exists (match v with
            | Channel => ShapeChannel
            | Chat => ShapeChat
            | HiddenUser => ShapeHiddenUser
            | User => ShapeUser
            | Import => ShapeImport
            end).
    split; [by destruct v |]. intros s' Hs'. eapply Hinj; [exact Hs' |].
    by destruct v.
  - compute_done.
  - reflexivity.
  - intros name Hname.
    assert (Hok : Forall (fun n => n ∈ messages_and_media_origin_names)
                    (class_name <$> registry.*2)) by compute_done.
    by apply (proj1 (Forall_forall _ _) Hok).
Qed.

End VariantParser.

(** * Further properties of the adapters *)

Section MoreProperties.

Context {schema : Schema} {client : Collaborators}.

(** ** The shape of a translation result *)

Lemma parse_translate_result_shape (r : TranslateResult_r) v :
  parse_translate_result r = inr v ->
  match v with
  | Single t =>
      exists x, tr_result r = [x] /\ TranslatedText_parse x = inr t
  | Many l =>
      length (tr_result r) <> 1%nat /\
      Forall2 (fun x t => TranslatedText_parse x = inr t) (tr_result r) l
  end.
Proof.
  unfold parse_translate_result. case_bool_decide as Hlen.
  - destruct (length_one _ Hlen) as [x Hx]. rewrite Hx. simpl.
    destruct (TranslatedText_parse x) as [e | t] eqn:Hp; simpl; [done |].
    intros [= <-]. by exists x.
  - destruct (comprehension TranslatedText_parse (tr_result r)) as [e | l] eqn:Hc;
      simpl; [done |].
    intros [= <-]. split; [done |]. by apply comprehension_inr.
Qed.

(** X1.  Whether [translate_message_text] returns one object or a list is
    decided by the number of results in the response alone: a returned
    single object means the response held exactly one result, a returned
    list means it held zero, two or more, and the list is as long as the
    response. *)
Theorem translate_message_text_shape_by_count lang chat mids w w1 p w2
    (r : TranslateResult_r) v :
  resolve_peer chat w = (w1, inr p) ->
  invoke (translate_ids_request lang p (ids_of mids)) w1 = (w2, inr r) ->
  outcome (translate_message_text lang chat mids) w = inr v ->
  match v with
  | Single t =>
      length (tr_result r) = 1%nat /\
      exists x, tr_result r = [x] /\ TranslatedText_parse x = inr t
  | Many l =>
      length (tr_result r) <> 1%nat /\
      length l = length (tr_result r) /\
      Forall2 (fun x t => TranslatedText_parse x = inr t) (tr_result r) l
  end.
Proof.
  intros Hr Hi. unfold outcome.
  rewrite (run_translate_message_invoke_returns _ _ _ _ _ _ _ _ Hr Hi). simpl.
  intros Hv. apply parse_translate_result_shape in Hv. destruct v as [t | l].
  - destruct Hv as (x & Hx & Hp). split; [by rewrite Hx |]. by exists x.
  - destruct Hv as [Hn Hl]. split; [done |].
    split; [symmetry; exact (Forall2_length _ _ _ Hl) | done].
Qed.

(** X2.  An empty list of identifiers is not rejected: the request goes out
    with [id = []].  When the response holds no result the call returns the
    empty list; [_parse] is not consulted and nothing is raised. *)
Theorem translate_message_text_empty lang chat w w1 p w2
    (r : TranslateResult_r) :
  resolve_peer chat w = (w1, inr p) ->
  invoke (translate_ids_request lang p []) w1 = (w2, inr r) ->
  tr_result r = [] ->
  sent_requests (trace (translate_message_text lang chat (IdList [])) w)
  = [FnTranslateText (TranslateText lang (Some p) (Some []) None)] /\
  outcome (translate_message_text lang chat (IdList [])) w = inr (Many []).
Proof.
  intros Hr Hi Hnil. split.
  - by rewrite trace_translate_message_text, Hr.
  - unfold outcome.
    rewrite (run_translate_message_invoke_returns lang chat (IdList [])
               _ _ _ _ _ Hr Hi).
    simpl. unfold parse_translate_result. by rewrite Hnil.
Qed.

(** X3.  A list holding one identifier is treated like the bare identifier:
    the two calls run alike, and when the transport answers with one result
    the caller who passed a list gets a single object back, not a list of
    one. *)
Theorem translate_message_text_singleton_list lang chat n w w1 p w2
    (r : TranslateResult_r) :
  resolve_peer chat w = (w1, inr p) ->
  invoke (translate_ids_request lang p [n]) w1 = (w2, inr r) ->
  length (tr_result r) = length [n] ->
  run (translate_message_text lang chat (IdList [n])) w
  = run (translate_message_text lang chat (OneId n)) w /\
  exists x,
    tr_result r = [x] /\
    outcome (translate_message_text lang chat (IdList [n])) w
    = Single <$> TranslatedText_parse x /\
    forall l, outcome (translate_message_text lang chat (IdList [n])) w
              <> inr (Many l).
Proof.
  intros Hr Hi Hlen. split; [reflexivity |].
  destruct (length_one _ Hlen) as [x Hx]. exists x. split; [done |].
  assert (Hout : outcome (translate_message_text lang chat (IdList [n])) w
                 = Single <$> TranslatedText_parse x).
  { unfold outcome.
    rewrite (run_translate_message_invoke_returns lang chat (IdList [n])
               _ _ _ _ _ Hr Hi).
    by apply parse_translate_result_one. }
  split; [done |]. intros l. rewrite Hout.
  by destruct (TranslatedText_parse x).
Qed.

(** X4.  [translate_text] sends one text, the message [parse_text_entities]
    produced, with neither peer nor ids; so when the transport answers with
    one result per text the call returns a single object, never a list. *)
Theorem translate_text_one_text lang txt pm ents w w1 pt :
  parse_text_entities txt pm ents w = (w1, inr pt) ->
  exists q twe,
    sent_requests (trace (translate_text lang txt pm ents) w)
    = [FnTranslateText q] /\
    to_lang q = lang /\ tt_peer q = None /\ tt_id q = None /\
    tt_text q = Some [twe] /\ text twe = pt_message pt /\
    forall w2 (r : TranslateResult_r),
      invoke (FnTranslateText q) w1 = (w2, inr r) ->
      length (tr_result r) = length [twe] ->
      exists x,
        tr_result r = [x] /\
        outcome (translate_text lang txt pm ents) w
        = Single <$> TranslatedText_parse x.
Proof.
  intros Hp. rewrite trace_translate_text, Hp. simpl.
  eexists _, _. split; [reflexivity |]. simpl.
  do 5 (split; [reflexivity |]).
  intros w2 r Hi Hlen. destruct (length_one _ Hlen) as [x Hx].
  exists x. split; [done |]. unfold outcome.
  rewrite (run_translate_text_invoke_returns _ _ _ _ _ _ _ _ _ Hp Hi).
  by apply parse_translate_result_one.
Qed.

(** ** The request of the invite-link edit *)

(** X5.  [edit_chat_invite_link] checks nothing itself.  Once the peer is
    resolved the request goes out with the resolved peer, the link, and
    each optional keyword as given ([None] when left out), also when
    [creates_join_request=True] comes with a [member_limit], which the
    docstring says cannot be specified together. *)
Theorem edit_forwards_every_keyword chat lnk kn ke kml kcjr w w1 p :
  resolve_peer chat w = (w1, inr p) ->
  exists q,
    sent_requests (trace (call_edit_chat_invite_link chat lnk kn ke kml kcjr) w)
    = [FnEditExportedChatInvite q] /\
    peer q = p /\
    link q = lnk /\
    title q = bind_kw None kn /\
    request_needed q = bind_kw None kcjr /\
    usage_limit q = bind_kw None kml /\
    expire_date q = datetime_to_timestamp (bind_kw ExpNone ke) /\
    (forall n : Z, kcjr = Some (Some true) -> kml = Some (Some n) ->
        request_needed q = Some true /\ usage_limit q = Some n).
Proof.
  intros Hr. unfold call_edit_chat_invite_link. rewrite trace_edit, Hr. simpl.
  eexists. split; [reflexivity |]. simpl.
  do 6 (split; [reflexivity |]). by intros n -> ->.
Qed.

(** ** More on the user table *)

(** X6.  Building the table from two lists in a row: the entries of the
    second list win over those of the first. *)
Theorem users_by_id_app us1 us2 :
  users_by_id (us1 ++ us2) = users_by_id us2 ∪ users_by_id us1.
Proof.
  induction us2 as [| u us2 IH] using rev_ind.
  - rewrite app_nil_r. unfold users_by_id at 2. simpl.
    by rewrite (left_id_L ∅ (∪)).
  - rewrite app_assoc, !users_by_id_snoc, IH. by rewrite insert_union_l.
Qed.

Lemma users_by_id_dom us :
  dom (users_by_id us) = list_to_set (user_id <$> us).
Proof.
  induction us as [| u us IH] using rev_ind; [apply dom_empty_L |].
  rewrite users_by_id_snoc, dom_insert_L, IH, fmap_app, list_to_set_app_L.
  simpl. rewrite (right_id_L ∅ (∪)). apply (comm_L (∪)).
Qed.

(** X7.  The keys of the table are the listed ids, no more and no fewer; the
    table never has more entries than users were listed, and has exactly as
    many when the listed ids are pairwise distinct. *)
Theorem users_by_id_size us :
  dom (users_by_id us) = list_to_set (user_id <$> us) /\
  (size (users_by_id us) <= length us)%nat /\
  (NoDup (user_id <$> us) -> size (users_by_id us) = length us).
Proof.
  split; [apply users_by_id_dom |]. split.
  - induction us as [| u us IH] using rev_ind; [done |].
    rewrite users_by_id_snoc, length_app. simpl.
    destruct (users_by_id us !! user_id u) as [v |] eqn:Hv.
    + rewrite map_size_insert_Some by (by eexists). lia.
    + rewrite map_size_insert_None by done. lia.
  - intros Hnd. rewrite <- size_dom, users_by_id_dom.
    rewrite size_list_to_set by done. by rewrite length_fmap.
Qed.

(** X8.  When the listed ids are pairwise distinct, the table does not
    depend on the order in which the users are listed. *)
Theorem users_by_id_order_irrelevant us us' :
  NoDup (user_id <$> us) ->
  us ≡ₚ us' ->
  users_by_id us = users_by_id us'.
Proof.
  intros Hnd Hperm.
  assert (Hnd' : NoDup (user_id <$> us')) by (by rewrite <- Hperm).
  apply map_eq. intros k.
  destruct (users_by_id us !! k) as [u |] eqn:Hu.
  - apply users_by_id_key in Hu as [Hin <-]. symmetry.
    apply users_by_id_unique; [done |]. by rewrite <- Hperm.
  - destruct (users_by_id us' !! k) as [u' |] eqn:Hu'; [| done].
    apply users_by_id_key in Hu' as [Hin <-].
    rewrite <- Hperm in Hin.
    by rewrite (users_by_id_unique _ _ Hnd Hin) in Hu.
Qed.

(** ** Calls in a row *)

Ltac unfold_adapter :=
  unfold outcome, trace, run, edit_chat_invite_link, translate_message_text,
    translate_text, mbind, M_bind, await_resolve_peer, await_invoke,
    await_parse_text_entities, await, lift;
  simpl.

Lemma adapter_call_frame A (m : M A) :
  adapter_call A m ->
  forall w t0,
    m (State w t0)
    = (State (st_world (run m w).1) (t0 ++ trace m w), outcome m w).
Proof.
  intros [chat lnk nm ex ml cjr | lang chat mids | lang txt pm ents] w t0.
  - unfold_adapter. destruct (resolve_peer chat w) as [w1 [e | p]]; simpl; [done |].
    destruct (invoke (edit_request p lnk nm ex ml cjr) w1) as [w2 [e | r]];
      simpl; by rewrite <- app_assoc.
  - unfold_adapter. destruct (resolve_peer chat w) as [w1 [e | p]]; simpl; [done |].
    destruct (invoke (translate_ids_request lang p (ids_of mids)) w1)
      as [w2 [e | r]]; simpl; by rewrite <- app_assoc.
  - unfold_adapter.
    destruct (parse_text_entities txt pm ents w) as [w1 [e | pt]]; simpl;
      [done |].
    destruct (invoke (translate_text_request lang pt) w1) as [w2 [e | r]];
      simpl; by rewrite <- app_assoc.
Qed.

(** Sequencing: when the first computation raises, the second is not
    started; otherwise the adapter call that follows runs from the world
    the first left and its awaited calls follow the first's. *)
Lemma adapter_calls_in_sequence A B (m1 : M A) (m2 : A -> M B) w :
  (forall a, adapter_call B (m2 a)) ->
  trace (in_sequence m1 m2) w
  = trace m1 w ++
    match outcome m1 w with
    | inl _ => []
    | inr a => trace (m2 a) (st_world (run m1 w).1)
    end /\
  outcome (in_sequence m1 m2) w
  = match outcome m1 w with
    | inl e => inl e
    | inr a =>
        match outcome (m2 a) (st_world (run m1 w).1) with
        | inl e => inl e
        | inr b => inr (a, b)
        end
    end.
Proof.
  intros Hm2.
  unfold in_sequence, trace, outcome, run, mbind, M_bind, mret, M_ret.
  destruct (m1 (State w [])) as [[w1 t1] [e | a]] eqn:H1; simpl.
  - by rewrite app_nil_r.
  - rewrite (adapter_call_frame _ _ (Hm2 a) w1 t1).
    unfold trace, outcome, run. simpl.
    by destruct (m2 a (State w1 [])) as [[w2 t2] [e | b]].
Qed.

Lemma resolve_count_app t1 t2 :
  resolve_count (t1 ++ t2) = (resolve_count t1 + resolve_count t2)%nat.
Proof. unfold resolve_count. by rewrite List.filter_app, length_app. Qed.

(** X10.  No peer is remembered between calls: when a
    [translate_message_text] or [edit_chat_invite_link] call that returned
    is repeated with the same arguments, [resolve_peer] is awaited a second
    time. *)
Theorem repeated_call_resolves_again :
  (forall lang chat mids w v,
      outcome (translate_message_text lang chat mids) w = inr v ->
      resolve_count
        (trace (in_sequence (translate_message_text lang chat mids)
                  (fun _ => translate_message_text lang chat mids)) w)
      = 2%nat) /\
  (forall chat lnk nm ex ml cjr w v,
      outcome (edit_chat_invite_link chat lnk nm ex ml cjr) w = inr v ->
      resolve_count
        (trace (in_sequence (edit_chat_invite_link chat lnk nm ex ml cjr)
                  (fun _ => edit_chat_invite_link chat lnk nm ex ml cjr)) w)
      = 2%nat).
Proof.
  split.
  - intros lang chat mids w v Hv.
    destruct (adapter_calls_in_sequence _ _
                (translate_message_text lang chat mids)
                (fun _ => translate_message_text lang chat mids) w
                (fun _ => call_translate_message lang chat mids)) as [-> _].
    rewrite Hv, resolve_count_app, !trace_translate_message_text.
    unfold resolve_count. simpl.
    by do 2 (match goal with
             | |- context [match ?x with _ => _ end] => destruct x
             end; simpl).
  - intros chat lnk nm ex ml cjr w v Hv.
    destruct (adapter_calls_in_sequence _ _
                (edit_chat_invite_link chat lnk nm ex ml cjr)
                (fun _ => edit_chat_invite_link chat lnk nm ex ml cjr) w
                (fun _ => call_edit chat lnk nm ex ml cjr)) as [-> _].
    rewrite Hv, resolve_count_app, !trace_edit.
    unfold resolve_count. simpl.
    by do 2 (match goal with
             | |- context [match ?x with _ => _ end] => destruct x
             end; simpl).
Qed.

End MoreProperties.

(** ** The export tables *)

Section ExportTables.

Import Exports MessageOriginFamily.

Lemma same_names (l k : list string) :
  NoDup l -> NoDup k ->
  Forall (fun x => x ∈ k) l -> Forall (fun x => x ∈ l) k ->
  l ≡ₚ k.
Proof.
  intros Hl Hk Hlk Hkl. apply NoDup_Permutation; [done | done |].
  intros x. split; intros Hx.
  - by apply (proj1 (Forall_forall _ _) Hlk).
  - by apply (proj1 (Forall_forall _ _) Hkl).
Qed.

(** X11.  In [messages_and_media/__init__.py] the names listed in [__all__]
    are the names the import lines bind: each bound name is exported, each
    exported name is bound, none is listed twice, and each comes from a
    submodule of its own.  The six names of the [MessageOrigin] family are
    among them. *)
Theorem messages_and_media_exports_what_it_imports :
  NoDup messages_and_media_all /\
  bound_names messages_and_media_imports ≡ₚ messages_and_media_all /\
  NoDup messages_and_media_imports.*1 /\
  (forall name, name ∈ messages_and_media_all ->
      is_Some (module_of messages_and_media_imports name)) /\
  messages_and_media_origin_names ⊆ messages_and_media_all.
Proof.
  assert (Hall : NoDup messages_and_media_all) by compute_done.
  split; [done |]. split; [| split; [| split]].
  - apply same_names; [compute_done | done | compute_done | compute_done].
  - compute_done.
  - intros name Hname.
    assert (Hok : Forall (fun n => is_Some (module_of messages_and_media_imports n))
                    messages_and_media_all) by compute_done.
    by apply (proj1 (Forall_forall _ _) Hok).
  - intros name Hname.
    assert (Hok : Forall (fun n => n ∈ messages_and_media_all)
                    messages_and_media_origin_names) by compute_done.
    by apply (proj1 (Forall_forall _ _) Hok).
Qed.

(** X12.  In [message_origin/__init__.py] too [__all__] names what the
    import lines bind, once each.  The two packages differ in one name of
    the family: this one exports [MessageImportInfo] where
    [messages_and_media] exports [MessageOriginImport]; every other name it
    exports is exported there as well. *)
Theorem message_origin_exports_what_it_imports :
  NoDup message_origin_all /\
  bound_names message_origin_imports ≡ₚ message_origin_all /\
  (forall name, name ∈ message_origin_all ->
      name ∈ messages_and_media_all <-> name <> "MessageImportInfo") /\
  "MessageOriginImport" ∉ message_origin_all.
Proof.
  split; [compute_done |]. split; [| split].
  - apply same_names; compute_done.
  - intros name Hname.
    assert (Hok : Forall (fun n => n ∈ messages_and_media_all
                                   <-> n <> "MessageImportInfo")
                    message_origin_all) by compute_done.
    by apply (proj1 (Forall_forall _ _) Hok).
  - compute_done.
Qed.

End ExportTables.

(** * The properties on the sample collaborators *)

Import Demo.

Lemma translate_one_result_is_single_witness :
  let r := {| tr_result := [TextWithEntities "t" (Some [5%Z])] |} in
  length (tr_result r) = 1%nat /\
  resolve_peer (ChatInt 7) 0%nat = (1%nat, inr 7%Z) /\
  invoke (translate_ids_request "en" 7%Z (ids_of (OneId 5))) 1%nat
  = (2%nat, inr r) /\
  outcome (translate_message_text "en" (ChatInt 7) (OneId 5)) 0%nat
  = inr (Single ("t", [5%Z])).
Proof.
  intros r. repeat (split; [reflexivity |]).
  destruct (@translate_one_result_is_single demo_schema demo_client "en" r
              eq_refl) as (x & Hx & Hmsg & _).
  injection Hx as <-.
  exact (Hmsg (ChatInt 7) (OneId 5) 0%nat 1%nat 7%Z 2%nat eq_refl eq_refl).
Defined.

Lemma translate_many_results_in_order_witness :
  let r := {| tr_result := [TextWithEntities "t" (Some [3%Z]);
                            TextWithEntities "t" (Some [4%Z])] |} in
  resolve_peer (ChatInt 7) 0%nat = (1%nat, inr 7%Z) /\
  invoke (translate_ids_request "en" 7%Z (ids_of (IdList [3%Z; 4%Z]))) 1%nat
  = (2%nat, inr r) /\
  (2 <= length (tr_result r))%nat /\
  outcome (translate_message_text "en" (ChatInt 7) (IdList [3%Z; 4%Z])) 0%nat
  = inr (Many [("t", [3%Z]); ("t", [4%Z])]).
Proof.
  intros r.
  split; [reflexivity |]. split; [reflexivity |]. split; [simpl; lia |].
  apply (@translate_many_results_in_order demo_schema demo_client
           "en" (ChatInt 7) (IdList [3%Z; 4%Z]) 0%nat 1%nat 7%Z 2%nat r
           eq_refl eq_refl ltac:(simpl; lia)).
  repeat constructor.
Defined.

Lemma edit_member_limit_forwarded_witness :
  resolve_peer (ChatInt 7) 0%nat = (1%nat, inr 7%Z) /\
  sent_requests
    (trace (call_edit_chat_invite_link (ChatInt 7) "l" None None
              (Some (Some 0%Z)) None) 0%nat)
  = [FnEditExportedChatInvite
       (EditExportedChatInvite 7%Z "l" None (Some 0%Z) None None)] /\
  sent_requests
    (trace (call_edit_chat_invite_link (ChatInt 7) "l" None None
              (Some (Some 0%Z)) None) 0%nat)
  <> sent_requests
    (trace (call_edit_chat_invite_link (ChatInt 7) "l" None None
              None None) 0%nat).
Proof.
  split; [reflexivity |].
  destruct (@edit_member_limit_forwarded demo_schema demo_client
              (ChatInt 7) "l" None None (Some (Some 0%Z)) None 0%nat 1%nat 7%Z
              eq_refl) as [_ Hne].
  split; [reflexivity | exact Hne].
Defined.

Lemma translate_message_text_one_request_witness :
  resolve_peer (ChatInt 7) 0%nat = (1%nat, inr 7%Z) /\
  exists q,
    sent_requests (trace (translate_message_text "en" (ChatInt 7) (OneId 5)) 0%nat)
    = [FnTranslateText q] /\
    to_lang q = "en" /\
    tt_peer q = Some 7%Z /\
    tt_text q = None /\
    (forall n, OneId 5 = OneId n -> tt_id q = Some [n]) /\
    (forall l, OneId 5 = IdList l -> tt_id q = Some l).
Proof.
  split; [reflexivity |].
  exact (@translate_message_text_one_request demo_schema demo_client
           "en" (ChatInt 7) (OneId 5) 0%nat 1%nat 7%Z eq_refl).
Defined.

Lemma translate_text_entities_never_null_witness :
  parse_text_entities "hi" None None 0%nat
  = (0%nat, inr {| pt_message := "hi"; pt_entities := None |}) /\
  exists l,
    sent_requests (trace (translate_text "en" "hi" None None) 0%nat)
    = [FnTranslateText
         (TranslateText "en" None None (Some [TextWithEntities "hi" (Some l)]))] /\
    l = [].
Proof.
  split; [reflexivity |].
  destruct (@translate_text_entities_never_null demo_schema demo_client
              "en" "hi" None None 0%nat 0%nat
              {| pt_message := "hi"; pt_entities := None |} eq_refl)
    as (l & Hsent & Hnone & _).
  exists l. split; [exact Hsent | exact (Hnone eq_refl)].
Defined.

(** Two listed users with the same id: the table keeps the second, so the
    id of the first is not sent to the first. *)
Lemma users_table_keeps_last_duplicate :
  let us : list RawUser := [(7%Z, "a"); (7%Z, "b")] in
  ~ (forall u, u ∈ us -> users_by_id us !! user_id u = Some u).
Proof.
  intros us Hall.
  assert (Hin : (7%Z, "a") ∈ us) by (apply list_elem_of_here).
  specialize (Hall _ Hin). vm_compute in Hall. discriminate.
Qed.

Lemma edit_threads_user_table_witness :
  let r := {| invite := "l"; users := [(1%Z, "ann"); (2%Z, "bob")] |} in
  resolve_peer (ChatInt 7) 0%nat = (1%nat, inr 7%Z) /\
  invoke (edit_request 7%Z "l" None ExpNone None None) 1%nat = (2%nat, inr r) /\
  outcome (edit_chat_invite_link (ChatInt 7) "l" None ExpNone None None) 0%nat
  = inr ("l", users_by_id (users r)) /\
  users_by_id (users r) !! 2%Z = Some (2%Z, "bob").
Proof.
  intros r. split; [reflexivity |]. split; [reflexivity |].
  destruct (@edit_threads_user_table demo_schema demo_client
              (ChatInt 7) "l" None ExpNone None None 0%nat 1%nat 7%Z 2%nat r
              eq_refl eq_refl) as (Hout & _ & _ & Huniq & _).
  split; [exact Hout |].
  apply (Huniq ltac:(compute_done) (2%Z, "bob")). compute_done.
Defined.

Lemma adapters_propagate_failures_witness :
  outcome (edit_chat_invite_link (ChatStr "nobody") "l" None ExpNone None None)
    0%nat
  = inl "USERNAME_NOT_OCCUPIED" /\
  outcome (translate_message_text "en" (ChatInt 7) (OneId 5)) 9%nat
  = inl "FLOOD_WAIT" /\
  outcome (translate_text "en" "" None None) 0%nat = inl "EMPTY_TEXT".
Proof.
  destruct (@adapters_propagate_failures demo_schema demo_client)
    as (Hedit & _ & Hmsg & _ & Htext & _ & _).
  split; [| split].
  - apply Hedit. left. by exists 1%nat.
  - apply Hmsg. right. left. by exists 10%nat, 7%Z, 11%nat.
  - apply Htext. right. right.
    by exists 0%nat, {| pt_message := ""; pt_entities := None |}, 1%nat,
      {| tr_result := [TextWithEntities "" (Some [])] |}.
Defined.

(** A successful [translate_text] call never awaited [resolve_peer]. *)
Lemma translate_text_resolves_no_peer :
  outcome (translate_text "en" "hi" None None) 0%nat = inr (Single ("hi", [])) /\
  resolve_count (trace (translate_text "en" "hi" None None) 0%nat) <> 1%nat.
Proof. split; [reflexivity | vm_compute; discriminate]. Qed.

Lemma parse_returns_the_matching_variant_witness :
  let parse := MessageOriginFamily._parse
                 (Payload := MessageOriginFamily.raw_shape * option Z)
                 (Identity := string) fst snd in
  let users : option (gmap Z string) := Some {[ 7%Z := "ann" ]} in
  let built v p who :=
    inr {| MessageOriginFamily.kind := v;
           MessageOriginFamily.source := p;
           MessageOriginFamily.sender := who |} in
  parse (MessageOriginFamily.ShapeChannel, None) users
  = built MessageOriginFamily.Channel (MessageOriginFamily.ShapeChannel, None) None /\
  parse (MessageOriginFamily.ShapeChat, None) users
  = built MessageOriginFamily.Chat (MessageOriginFamily.ShapeChat, None) None /\
  parse (MessageOriginFamily.ShapeHiddenUser, None) users
  = built MessageOriginFamily.HiddenUser
      (MessageOriginFamily.ShapeHiddenUser, None) None /\
  parse (MessageOriginFamily.ShapeUser, Some 7%Z) users
  = built MessageOriginFamily.User
      (MessageOriginFamily.ShapeUser, Some 7%Z) (Some "ann") /\
  parse (MessageOriginFamily.ShapeImport, None) users
  = built MessageOriginFamily.Import (MessageOriginFamily.ShapeImport, None) None /\
  parse (MessageOriginFamily.ShapeForeign "messageFwdHeaderNew", None) users
  = inl (MessageOriginFamily.SchemaDrift
           (MessageOriginFamily.ShapeForeign "messageFwdHeaderNew")).
Proof.
  intros parse users built.
  destruct (parse_returns_the_matching_variant
              (Payload := MessageOriginFamily.raw_shape * option Z)
              (Identity := string) fst snd)
    as (Hfamily & Hforeign & _).
  split; [| split; [| split; [| split; [| split]]]].
  - apply (Hfamily (MessageOriginFamily.ShapeChannel, None) users). reflexivity.
  - apply (Hfamily (MessageOriginFamily.ShapeChat, None) users). reflexivity.
  - apply (Hfamily (MessageOriginFamily.ShapeHiddenUser, None) users).
    reflexivity.
  - apply (Hfamily (MessageOriginFamily.ShapeUser, Some 7%Z) users).
    reflexivity.
  - apply (Hfamily (MessageOriginFamily.ShapeImport, None) users). reflexivity.
  - apply (Hforeign (MessageOriginFamily.ShapeForeign "messageFwdHeaderNew", None)
             users "messageFwdHeaderNew").
    reflexivity.
Defined.

(** ** The further properties on the sample collaborators *)

Lemma translate_message_text_shape_by_count_witness :
  let r := {| tr_result := [TextWithEntities "t" (Some [3%Z]);
                            TextWithEntities "t" (Some [4%Z])] |} in
  let l : list TranslatedText := [("t", [3%Z]); ("t", [4%Z])] in
  resolve_peer (ChatInt 7) 0%nat = (1%nat, inr 7%Z) /\
  invoke (translate_ids_request "en" 7%Z (ids_of (IdList [3%Z; 4%Z]))) 1%nat
  = (2%nat, inr r) /\
  outcome (translate_message_text "en" (ChatInt 7) (IdList [3%Z; 4%Z])) 0%nat
  = inr (Many l) /\
  length (tr_result r) <> 1%nat /\
  length l = length (tr_result r) /\
  Forall2 (fun x t => TranslatedText_parse x = inr t) (tr_result r) l.
Proof.
  intros r l. do 3 (split; [reflexivity |]).
  exact (@translate_message_text_shape_by_count demo_schema demo_client
           "en" (ChatInt 7) (IdList [3%Z; 4%Z]) 0%nat 1%nat 7%Z 2%nat r (Many l)
           eq_refl eq_refl eq_refl).
Defined.

Lemma translate_message_text_empty_witness :
  let r := {| tr_result := [] |} in
  resolve_peer (ChatInt 7) 0%nat = (1%nat, inr 7%Z) /\
  invoke (translate_ids_request "en" 7%Z []) 1%nat = (2%nat, inr r) /\
  tr_result r = [] /\
  sent_requests (trace (translate_message_text "en" (ChatInt 7) (IdList [])) 0%nat)
  = [FnTranslateText (TranslateText "en" (Some 7%Z) (Some []) None)] /\
  outcome (translate_message_text "en" (ChatInt 7) (IdList [])) 0%nat
  = inr (Many []).
Proof.
  intros r. do 3 (split; [reflexivity |]).
  exact (@translate_message_text_empty demo_schema demo_client
           "en" (ChatInt 7) 0%nat 1%nat 7%Z 2%nat r eq_refl eq_refl eq_refl).
Defined.

Lemma translate_message_text_singleton_list_witness :
  let r := {| tr_result := [TextWithEntities "t" (Some [5%Z])] |} in
  resolve_peer (ChatInt 7) 0%nat = (1%nat, inr 7%Z) /\
  invoke (translate_ids_request "en" 7%Z [5%Z]) 1%nat = (2%nat, inr r) /\
  length (tr_result r) = length [5%Z] /\
  outcome (translate_message_text "en" (ChatInt 7) (IdList [5%Z])) 0%nat
  = inr (Single ("t", [5%Z])).
Proof.
  intros r. do 3 (split; [reflexivity |]).
  destruct (@translate_message_text_singleton_list demo_schema demo_client
              "en" (ChatInt 7) 5%Z 0%nat 1%nat 7%Z 2%nat r
              eq_refl eq_refl eq_refl) as (_ & x & Hx & Hout & _).
  injection Hx as <-. exact Hout.
Defined.

Lemma translate_text_one_text_witness :
  parse_text_entities "hi" None None 0%nat
  = (0%nat, inr {| pt_message := "hi"; pt_entities := None |}) /\
  exists q twe,
    sent_requests (trace (translate_text "en" "hi" None None) 0%nat)
    = [FnTranslateText q] /\
    tt_peer q = None /\ tt_id q = None /\
    tt_text q = Some [twe] /\ text twe = "hi".
Proof.
  split; [reflexivity |].
  destruct (@translate_text_one_text demo_schema demo_client
              "en" "hi" None None 0%nat 0%nat
              {| pt_message := "hi"; pt_entities := None |} eq_refl)
    as (q & twe & Hsent & _ & Hpeer & Hid & Htext & Hmsg & _).
  by exists q, twe.
Defined.

Lemma edit_forwards_every_keyword_witness :
  resolve_peer (ChatInt 7) 0%nat = (1%nat, inr 7%Z) /\
  exists q,
    sent_requests
      (trace (call_edit_chat_invite_link (ChatInt 7) "l" None None
                (Some (Some 5%Z)) (Some (Some true))) 0%nat)
    = [FnEditExportedChatInvite q] /\
    request_needed q = Some true /\ usage_limit q = Some 5%Z.
Proof.
  split; [reflexivity |].
  destruct (@edit_forwards_every_keyword demo_schema demo_client
              (ChatInt 7) "l" None None (Some (Some 5%Z)) (Some (Some true))
              0%nat 1%nat 7%Z eq_refl)
    as (q & Hsent & _ & _ & _ & _ & _ & _ & Hboth).
  exists q. split; [exact Hsent | exact (Hboth 5%Z eq_refl eq_refl)].
Defined.

Lemma users_by_id_order_irrelevant_witness :
  let us : list RawUser := [(1%Z, "ann"); (2%Z, "bob")] in
  let us' : list RawUser := [(2%Z, "bob"); (1%Z, "ann")] in
  NoDup (user_id <$> us) /\ us ≡ₚ us' /\ users_by_id us = users_by_id us'.
Proof.
  intros us us'.
  assert (Hnd : NoDup (user_id <$> us)) by compute_done.
  assert (Hperm : us ≡ₚ us') by apply Permutation_swap.
  split; [exact Hnd |]. split; [exact Hperm |].
  exact (@users_by_id_order_irrelevant demo_schema us us' Hnd Hperm).
Defined.

Lemma repeated_call_resolves_again_witness :
  outcome (translate_message_text "en" (ChatInt 7) (OneId 5)) 0%nat
  = inr (Single ("t", [5%Z])) /\
  resolve_count
    (trace (in_sequence (translate_message_text "en" (ChatInt 7) (OneId 5))
              (fun _ => translate_message_text "en" (ChatInt 7) (OneId 5)))
       0%nat)
  = 2%nat.
Proof.
  split; [reflexivity |].
  exact (proj1 (@repeated_call_resolves_again demo_schema demo_client)
           "en" (ChatInt 7) (OneId 5) 0%nat (Single ("t", [5%Z])) eq_refl).
Defined.
